(** * Better Markdown Tables: the table model of [src/extension.ts]

    A shallow embedding of the table parser, the table formatter, the span
    locator, the sort command and the grid operations of the webview script,
    with the properties of the specification stated and settled over them.

    A JavaScript string is a sequence of UTF-16 code units; [length], [trim],
    [split], [padEnd] and [repeat] all count and compare code units, so a
    string is modelled as a list of code units (numbers in [N]). *)

From Stdlib Require Import List Bool Arith NArith ZArith Lia.
From Stdlib Require Import Ascii.
From Stdlib Require String.
Import String.StringSyntax.
From Stdlib Require Import Permutation Sorted.
Import ListNotations.
Open Scope string_scope.
Open Scope list_scope.

(** ** Strings *)

Module JsString.

Definition char := N.
Definition str := list char.

(** ASCII literals of the source, as code units. *)
Definition js (s : String.string) : str :=
  map N_of_ascii (String.list_ascii_of_string s).

Definition LF : char := 10%N.
Definition SPACE : char := 32%N.
Definition PIPE : char := 124%N.
Definition COLON : char := 58%N.
Definition HYPHEN : char := 45%N.

(** The code units matched by [\s] in a regular expression and stripped by
    [String.prototype.trim]: ECMAScript WhiteSpace and LineTerminator. *)
Definition isWhiteSpace (c : char) : bool :=
  ((9 <=? c) && (c <=? 13) || (c =? 32) || (c =? 160) || (c =? 5760)
   || (8192 <=? c) && (c <=? 8202) || (c =? 8232) || (c =? 8233)
   || (c =? 8239) || (c =? 8287) || (c =? 12288) || (c =? 65279))%N.

Fixpoint trimStart (s : str) : str :=
  match s with
  | [] => []
  | c :: s' => if isWhiteSpace c then trimStart s' else s
  end.

Definition trimEnd (s : str) : str := rev (trimStart (rev s)).

(** [s.trim()] *)
Definition trim (s : str) : str := trimEnd (trimStart s).

(** [s === ""]; also the falsiness of a string. *)
Definition isEmpty (s : str) : bool :=
  match s with [] => true | _ :: _ => false end.

(** [s.includes(c)] for a one-unit needle. *)
Definition includes (c : char) (s : str) : bool := existsb (N.eqb c) s.

(** [s.split(sep)] for a one-unit separator: never the empty array. *)
Fixpoint split (sep : char) (s : str) : list str :=
  match s with
  | [] => [[]]
  | c :: s' =>
      if (c =? sep)%N then [] :: split sep s'
      else match split sep s' with
           | h :: t => (c :: h) :: t
           | [] => [[c]]
           end
  end.

(** [parts.join(sep)] *)
Fixpoint join (sep : str) (parts : list str) : str :=
  match parts with
  | [] => []
  | [p] => p
  | p :: rest => p ++ sep ++ join sep rest
  end.

(** A JavaScript number as the formatter uses it: a non-negative integer, or
    [NaN] ([None]), which is what [Math.max(undefined, n)] gives. *)
Definition num := option nat.

(** [ToLength]/[ToIntegerOrInfinity] of such a number: [NaN] counts as 0. *)
Definition toLength (w : num) : nat :=
  match w with Some n => n | None => 0 end.

(** [Math.max(w, n)] *)
Definition mathMax (w : num) (n : nat) : num :=
  match w with Some m => Some (Nat.max m n) | None => None end.

(** [s.padEnd(w)]: spaces up to length [w], the string itself when it is
    already that long. *)
Definition padEnd (w : num) (s : str) : str :=
  s ++ repeat SPACE (toLength w - length s).

(** ["-".repeat(w)] *)
Definition dashes (w : num) : str := repeat HYPHEN (toLength w).

End JsString.
Import JsString.

(** ** Table span locator ([MarkdownTableCodeLensProvider]) *)

Module Locator.

Definition isTableRow (line : str) : bool :=
  let trimmed := trim line in
  includes PIPE trimmed && (2 <? length trimmed).

(** The backward scan [for (i = currentLine; i >= 0; i--)].  [lines[i]] past
    the end is [undefined], whose [trim] throws: [None]. *)
Fixpoint findTableStart (lines : list str) (currentLine : nat) : option Z :=
  match nth_error lines currentLine with
  | None => None
  | Some line =>
      if negb (isTableRow line) then Some (Z.of_nat currentLine + 1)%Z
      else match currentLine with
           | 0 => Some 0%Z
           | S i => findTableStart lines i
           end
  end.

(** The forward scan [for (i = currentLine; i < lines.length; i++)] over the
    lines from [i] on; [last] is [lines.length - 1]. *)
Fixpoint scanEnd (rest : list str) (i : nat) (last : Z) : Z :=
  match rest with
  | [] => last
  | line :: rest' =>
      if negb (isTableRow line) then (Z.of_nat i - 1)%Z
      else scanEnd rest' (S i) last
  end.

Definition findTableEnd (lines : list str) (currentLine : nat) : Z :=
  scanEnd (skipn currentLine lines) currentLine
          (Z.of_nat (length lines) - 1)%Z.

(** The caller's test [tableStart !== -1 && tableEnd !== -1]. *)
Definition spanAccepted (tableStart tableEnd : Z) : bool :=
  negb (tableStart =? -1)%Z && negb (tableEnd =? -1)%Z.

(** The arguments [{document, startLine, endLine}] and the place of the lenses
    of one table.  Each table gets three lenses on line [tableStart]: "Edit",
    "Sort (A-Z)" and "Sort (Z-A)". *)
Record codeLens : Type := {
  lensLine : Z;
  lensTitle : String.string;
  lensCommand : String.string;
  lensStartLine : Z;
  lensEndLine : Z
}.

Definition tableLenses (span : Z * Z) : list codeLens :=
  let (tableStart, tableEnd) := span in
  [ {| lensLine := tableStart; lensTitle := "Edit";
       lensCommand := "markdown-tables.editTable";
       lensStartLine := tableStart; lensEndLine := tableEnd |};
    {| lensLine := tableStart; lensTitle := "Sort (A-Z)";
       lensCommand := "markdown-tables.sortTableAsc";
       lensStartLine := tableStart; lensEndLine := tableEnd |};
    {| lensLine := tableStart; lensTitle := "Sort (Z-A)";
       lensCommand := "markdown-tables.sortTableDesc";
       lensStartLine := tableStart; lensEndLine := tableEnd |} ].

(** The loop [for (i = 0; i < lines.length; i++)] of [provideCodeLenses] from
    position [i] on, as the spans it finds: on an accepted span it sets
    [i = tableEnd] before the increment.  The loop is not bounded by its
    shape, so it runs on [fuel]; [None] is fuel run out, or the throw of
    [findTableStart]. *)
Fixpoint tableSpans (fuel : nat) (lines : list str) (i : nat)
  : option (list (Z * Z)) :=
  match nth_error lines i with
  | None => Some []
  | Some line =>
      match fuel with
      | 0 => None
      | S fuel' =>
          if isTableRow line then
            match findTableStart lines i with
            | None => None
            | Some tableStart =>
                let tableEnd := findTableEnd lines i in
                if spanAccepted tableStart tableEnd then
                  option_map (cons (tableStart, tableEnd))
                             (tableSpans fuel' lines (S (Z.to_nat tableEnd)))
                else tableSpans fuel' lines (S i)
            end
          else tableSpans fuel' lines (S i)
      end
  end.

(** [provideCodeLenses]: the lines are [document.getText().split("\n")]; one
    round of the loop per line is fuel enough. *)
Definition provideCodeLenses (text : str) : option (list codeLens) :=
  let lines := split LF text in
  option_map (flat_map tableLenses) (tableSpans (length lines) lines 0).

End Locator.

(** ** Table parser and formatter ([MarkdownTableProvider]) *)

Definition Grid := list (list str).

Module Parser.

(** [/^[\s\|:\-]+$/.test(line)] *)
Definition isSeparatorChar (c : char) : bool :=
  (isWhiteSpace c || (c =? PIPE) || (c =? COLON) || (c =? HYPHEN))%N.

Definition isSeparatorRow (line : str) : bool :=
  negb (isEmpty line) && forallb isSeparatorChar line.

(** The callback of [.filter((cell, index, array) => ...)], run over the
    cells from position [index] on; [len] is [array.length]. *)
Fixpoint filterOuter (len index : nat) (cells : list str) : list str :=
  match cells with
  | [] => []
  | cell :: cells' =>
      if negb ((index =? 0) && isEmpty cell)
         && negb ((index =? len - 1) && isEmpty cell)
      then cell :: filterOuter len (S index) cells'
      else filterOuter len (S index) cells'
  end.

(** [line.split("|").map(cell => cell.trim()).filter(...)] *)
Definition lineCells (line : str) : list str :=
  let array := map trim (split PIPE line) in
  filterOuter (length array) 0 array.

(** [tableText.split("\n").filter(line => line.trim())] *)
Definition nonBlankLines (tableText : str) : list str :=
  filter (fun line => negb (isEmpty (trim line))) (split LF tableText).

(** The loop [for (i = 0; i < lines.length; i++)] from position [i] on. *)
Fixpoint parseLines (i : nat) (lines : list str) : Grid :=
  match lines with
  | [] => []
  | l :: lines' =>
      let line := trim l in
      if (i =? 1) && isSeparatorRow line then parseLines (S i) lines'
      else
        let cells := lineCells line in
        if 0 <? length cells then cells :: parseLines (S i) lines'
        else parseLines (S i) lines'
  end.

Definition parseMarkdownTable (tableText : str) : Grid :=
  parseLines 0 (nonBlankLines tableText).

End Parser.

Module Formatter.

(** [Math.max(...data.map(row => row.length))], for a non-empty [data]. *)
Definition maxCols (data : Grid) : nat := list_max (map (@length str) data).

(** [while (normalizedRow.length < maxCols) normalizedRow.push("")] *)
Definition normalizeRow (cols : nat) (row : list str) : list str :=
  row ++ repeat [] (cols - length row).

Definition normalizedData (data : Grid) : Grid :=
  map (normalizeRow (maxCols data)) data.

(** The inner loop [colWidths[i] = Math.max(colWidths[i], row[i].length)]
    over one row.  Past the end of [colWidths] the read is [undefined], the
    maximum is [NaN] and the write appends it. *)
Fixpoint widen (colWidths : list num) (row : list str) : list num :=
  match row with
  | [] => colWidths
  | cell :: row' =>
      match colWidths with
      | w :: ws => mathMax w (length cell) :: widen ws row'
      | [] => None :: widen [] row'
      end
  end.

(** [new Array(maxCols).fill(0)], then the loop over the normalized rows. *)
Definition colWidths (data : Grid) : list num :=
  fold_left widen (normalizedData data) (repeat (Some 0) (maxCols data)).

(** [row.map((cell, i) => cell.padEnd(colWidths[i]))]; a missing width is
    [undefined], which pads nothing. *)
Fixpoint paddedCells (widths : list num) (row : list str) : list str :=
  match row with
  | [] => []
  | cell :: row' =>
      match widths with
      | w :: ws => padEnd w cell :: paddedCells ws row'
      | [] => padEnd None cell :: paddedCells [] row'
      end
  end.

Definition separatorCells (widths : list num) : list str := map dashes widths.

(** The template [`| ${cells.join(" | ")} |`]. *)
Definition tableLine (cells : list str) : str :=
  js "| " ++ join (js " | ") cells ++ js " |".

(** The padded cells of every row, in row order. *)
Definition paddedRows (data : Grid) : list (list str) :=
  map (paddedCells (colWidths data)) (normalizedData data).

(** The lines pushed by the loop over [normalizedData]: the separator line
    follows row 0. *)
Definition tableLines (data : Grid) : list str :=
  match paddedRows data with
  | [] => []
  | header :: body =>
      tableLine header :: tableLine (separatorCells (colWidths data))
        :: map tableLine body
  end.

Definition generateMarkdownTable (data : Grid) : str :=
  match data with
  | [] => []
  | _ :: _ => join [LF] (tableLines data)
  end.

End Formatter.

(** ** The sort command *)

(** The calls into the editor host that a command makes, in order. *)
Inductive hostCall : Type :=
| ShowInformationMessage (message : String.string)
| ApplyEdit (startLine startCharacter endLine endCharacter : nat)
            (newText : str).

Module SortCommand.
Import Parser Formatter.

(** [Array.prototype.sort(compare)]: ECMAScript requires the sort to be
    stable, and for a consistent comparator the stable result is unique; it is
    computed here by insertion from the right, an element moving past those it
    compares strictly greater than. *)
Section ArraySort.
Variable A : Type.
Variable compare : A -> A -> Z.

Fixpoint insert (a : A) (sorted : list A) : list A :=
  match sorted with
  | [] => [a]
  | b :: rest =>
      if (compare a b <=? 0)%Z then a :: sorted else b :: insert a rest
  end.

Definition sort (l : list A) : list A := fold_right insert [] l.
End ArraySort.
Arguments insert {A} compare a sorted.
Arguments sort {A} compare l.

Section Sort.
(** The two string built-ins of the runtime that depend on Unicode tables
    and on the locale. *)
Variable toLowerCase : str -> str.
Variable localeCompare : str -> str -> Z.

(** [(a[0] || "").trim().toLowerCase()] *)
Definition sortValue (row : list str) : str :=
  toLowerCase (trim (match row with cell :: _ => cell | [] => [] end)).

(** The comparator handed to [sort]. *)
Definition compareRows (ascending : bool) (a b : list str) : Z :=
  let aValue := sortValue a in
  let bValue := sortValue b in
  if ascending then localeCompare aValue bValue
  else localeCompare bValue aValue.

(** [[headerRow, ...sortedDataRows]]; [None] under the early return of
    [tableData.length <= 1]. *)
Definition sortedTableData (ascending : bool) (tableData : Grid)
  : option Grid :=
  match tableData with
  | headerRow :: (_ :: _) as dataRows =>
      Some (headerRow :: sort (compareRows ascending) dataRows)
  | _ => None
  end.

(** [document.lineAt(i).text] for [count] lines from [i]; [lineAt] throws
    on a line that does not exist: [None]. *)
Fixpoint lineTexts (document : list str) (i count : nat)
  : option (list str) :=
  match count with
  | 0 => Some []
  | S count' =>
      match nth_error document i with
      | None => None
      | Some text =>
          option_map (cons text) (lineTexts document (S i) count')
      end
  end.

Definition extractTableText (document : list str) (startLine endLine : nat)
  : option str :=
  option_map (join [LF])
             (lineTexts document startLine (S endLine - startLine)).

(** [saveTable]: one edit replacing the span by the formatted table. *)
Definition saveTable (startLine endLine : nat) (tableData : Grid)
  : list hostCall :=
  [ApplyEdit startLine 0 (endLine + 1) 0
     (generateMarkdownTable tableData ++ [LF])].

Definition noDataRows : String.string := "Table has no data rows to sort".

Definition sortTable (document : list str) (startLine endLine : nat)
           (ascending : bool) : option (list hostCall) :=
  match extractTableText document startLine endLine with
  | None => None
  | Some tableText =>
      match sortedTableData ascending (parseMarkdownTable tableText) with
      | None => Some [ShowInformationMessage noDataRows]
      | Some sortedData => Some (saveTable startLine endLine sortedData)
      end
  end.
End Sort.

End SortCommand.

(** ** Inserting a new table *)

(** The one call on the edit builder of [editor.edit]. *)
Inductive editorEdit : Type :=
| EditReplace (startLine startCharacter endLine endCharacter : nat)
              (text : str)
| EditInsert (line character : nat) (text : str).

Module InsertCommand.
Import Formatter.

(** The text put into the document: the table and a blank line, after a
    blank line of its own when the cursor line has text. *)
Definition insertText (currentLineText : str) (tableData : Grid) : str :=
  let markdownTable := generateMarkdownTable tableData in
  if isEmpty (trim currentLineText)
  then markdownTable ++ [LF; LF]
  else [LF; LF] ++ markdownTable ++ [LF; LF].

(** [insertNewTable], with the cursor at [(line, character)] on a line of
    text [currentLineText]. *)
Definition insertNewTable (currentLineText : str) (line character : nat)
           (tableData : Grid) : editorEdit :=
  if isEmpty (trim currentLineText)
  then EditReplace line 0 line (length currentLineText)
                   (insertText currentLineText tableData)
  else EditInsert line character (insertText currentLineText tableData).

End InsertCommand.

(** ** Grid operations of the editing surface (the webview script) *)

Module Webview.

(** [renderTable] replaces an empty [tableData] by a template before drawing;
    that is its only write to the grid. *)
Definition renderTable (tableData : Grid) : Grid :=
  match tableData with
  | [] => [[js "Header 1"; js "Header 2"]; [js "Cell 1"; js "Cell 2"]]
  | _ :: _ => tableData
  end.

(** [tableData.pop()] under [tableData.length > 1]. *)
Definition removeLastRow (tableData : Grid) : Grid :=
  if 1 <? length tableData then renderTable (removelast tableData)
  else tableData.

(** [tableData.forEach(row => row.pop())] under the guard on row 0.  The rows
    are distinct arrays (they come from a JSON literal, [addRow] and the
    template), so popping one never touches another. *)
Definition removeLastColumn (tableData : Grid) : Grid :=
  match tableData with
  | row0 :: _ =>
      if 1 <? length row0
      then renderTable (map (@removelast str) tableData)
      else tableData
  | [] => tableData
  end.

(** [array.splice(index, 1)[0]] and the array it leaves.  Past the end
    nothing is removed and the element is [undefined]: [None]. *)
Definition spliceOut {A : Type} (index : nat) (l : list A)
  : option A * list A :=
  (nth_error l index, firstn index l ++ skipn (S index) l).

(** [array.splice(index, 0, item)]: past the end the item is appended. *)
Definition spliceIn {A : Type} (index : nat) (item : A) (l : list A)
  : list A :=
  firstn index l ++ item :: skipn index l.

(** [moveRow].  With [fromIndex] past the end an [undefined] would be put
    among the rows, which is no Grid and on which [renderTable] fails:
    [None]. *)
Definition moveRow (fromIndex toIndex : nat) (tableData : Grid)
  : option Grid :=
  match spliceOut fromIndex tableData with
  | (Some movedRow, rest) => Some (renderTable (spliceIn toIndex movedRow rest))
  | (None, _) => None
  end.

(** The body of the [forEach] of [moveColumn] on one row; [None] when the row
    has no cell at [fromIndex], for the [undefined] that would become a
    cell. *)
Definition moveCell (fromIndex toIndex : nat) (row : list str)
  : option (list str) :=
  match spliceOut fromIndex row with
  | (Some movedCell, rest) => Some (spliceIn toIndex movedCell rest)
  | (None, _) => None
  end.

Fixpoint forEachRow (f : list str -> option (list str)) (tableData : Grid)
  : option Grid :=
  match tableData with
  | [] => Some []
  | row :: rows =>
      match f row, forEachRow f rows with
      | Some row', Some rows' => Some (row' :: rows')
      | _, _ => None
      end
  end.

Definition moveColumn (fromIndex toIndex : nat) (tableData : Grid)
  : option Grid :=
  option_map renderTable (forEachRow (moveCell fromIndex toIndex) tableData).

(** [addRow]: a row of empty cells as wide as row 0, two wide on an empty
    grid. *)
Definition addRow (tableData : Grid) : Grid :=
  let colCount :=
    match tableData with row0 :: _ => length row0 | [] => 2 end in
  renderTable (tableData ++ [repeat [] colCount]).

Definition addColumn (tableData : Grid) : Grid :=
  match tableData with
  | [] => renderTable [[js "Header 1"; js "Header 2"]]
  | _ :: _ => renderTable (map (fun row => row ++ [[]]) tableData)
  end.

(** [deleteSelectedRow]; the selection is [None] for [-1], a row position
    otherwise.  The second component is the text of the [alert], if any. *)
Definition deleteSelectedRow (selectedRowIndex : option nat)
           (tableData : Grid) : Grid * option String.string :=
  match selectedRowIndex with
  | Some index =>
      if 1 <? length tableData then
        if index =? 0 then (tableData, Some "Cannot delete header row")
        else (renderTable (snd (spliceOut index tableData)), None)
      else (tableData, None)
  | None => (tableData, None)
  end.

Definition deleteSelectedColumn (selectedColumnIndex : option nat)
           (tableData : Grid) : Grid :=
  match selectedColumnIndex, tableData with
  | Some index, row0 :: _ =>
      if 1 <? length row0
      then renderTable (map (fun row => snd (spliceOut index row)) tableData)
      else tableData
  | _, _ => tableData
  end.

End Webview.

(** ** Notions of the specification *)

Module Spec.
Import Parser Formatter.

(** The row a retained line contributes: its cells, unless there are none. *)
Definition rowOfLine (l : str) : Grid :=
  let cells := lineCells (trim l) in
  if 0 <? length cells then [cells] else [].

(** The non-blank lines without the separator line of position 1. *)
Definition withoutSeparator (lines : list str) : list str :=
  match lines with
  | l0 :: l1 :: rest =>
      if isSeparatorRow (trim l1) then l0 :: rest else lines
  | _ => lines
  end.

Definition startsWith (c : char) (s : str) : bool :=
  match s with d :: _ => (d =? c)%N | [] => false end.

Definition endsWith (c : char) (s : str) : bool := startsWith c (rev s).

(** Drop the leading cell of a line that starts with a pipe, then the
    trailing cell of a line that ends with one. *)
Definition stripOuterPipes (line : str) (cells : list str) : list str :=
  let cells1 := if startsWith PIPE line then tl cells else cells in
  if endsWith PIPE line then removelast cells1 else cells1.

(** The width of column [i]: the maximum cell length in that column over all
    rows, a row without a cell there counting as an empty cell. *)
Definition columnWidth (data : Grid) (i : nat) : nat :=
  list_max (map (fun row => length (nth i row [])) data).

Definition columnWidths (data : Grid) : list nat :=
  map (columnWidth data) (seq 0 (maxCols data)).

(** All rows have the length of row 0. *)
Definition sameLength (data : Grid) : bool :=
  match data with
  | [] => true
  | row0 :: rest => forallb (fun row => length row =? length row0) rest
  end.

(** No cell contains the code unit [c]. *)
Definition noCell (c : char) (data : Grid) : bool :=
  forallb (forallb (fun cell => negb (includes c cell))) data.

(** Every row has a cell. *)
Definition noEmptyRow (data : Grid) : bool :=
  forallb (fun row => 0 <? length row) data.

Definition strEqb (a b : str) : bool :=
  if list_eq_dec N.eq_dec a b then true else false.

(** No cell has leading or trailing whitespace. *)
Definition trimmedCells (data : Grid) : bool :=
  forallb (forallb (fun cell => strEqb (trim cell) cell)) data.

(** The cells read back from the line of a row: its cells, trimmed, and one
    empty cell for a row without cells. *)
Definition reparsedRow (row : list str) : list str :=
  match row with
  | [] => [[]]
  | _ :: _ => map trim row
  end.

(** A cell as the parser leaves it: trimmed, without pipe or line feed. *)
Definition cleanCell (cell : str) : Prop :=
  trim cell = cell /\ includes PIPE cell = false /\ includes LF cell = false.

(** [a] may stand before [b] under the comparator [compare]. *)
Definition notAfter {A : Type} (compare : A -> A -> Z) (a b : A) : Prop :=
  (compare a b <= 0)%Z.

(** The elements of [l] that tie with [p] under [compare], in the order of
    [l]. *)
Definition ties {A : Type} (compare : A -> A -> Z) (p : A) (l : list A)
  : list A :=
  filter (fun b => (compare p b =? 0)%Z) l.

(** Line [j] of [lines] exists and is table-like. *)
Definition tableAt (lines : list str) (j : nat) : bool :=
  match nth_error lines j with
  | Some line => Locator.isTableRow line
  | None => false
  end.

(** The number of table-like lines at the front of [lines]. *)
Fixpoint runLength (lines : list str) : nat :=
  match lines with
  | [] => 0
  | line :: rest => if Locator.isTableRow line then S (runLength rest) else 0
  end.

(** The document of the specification's span example. *)
Definition exampleLines : list str :=
  [js "text"; js "|a|b|"; js "|-|-|"; js "|1|2|"; js "text"].

(** The lines [startLine] to [endLine] of a document. *)
Definition spanLines (document : list str) (startLine endLine : nat)
  : list str :=
  firstn (S endLine - startLine) (skipn startLine document).

(** The length of every line of a formatted table with the column widths
    [widths]: the cells, " | " between them, "| " and " |" around them. *)
Definition lineLength (widths : list nat) : nat :=
  4 + list_sum widths + 3 * (length widths - 1).

(** [cell] followed by spaces up to the width [w]; [cell] itself when it is
    that wide already. *)
Definition padTo (w : nat) (cell : str) : str :=
  cell ++ repeat SPACE (w - length cell).

(** The cells a row is emitted with: for every column [i] of the Grid,
    cell [i] of the row (the empty string where the row is too short)
    padded to the width of the column. *)
Definition emittedCells (data : Grid) (row : list str) : list str :=
  map (fun i => padTo (columnWidth data i) (nth i row []))
      (seq 0 (maxCols data)).

(** The dash runs of the separator row, one per column. *)
Definition dashRuns (data : Grid) : list str :=
  map (fun i => repeat HYPHEN (columnWidth data i)) (seq 0 (maxCols data)).

(** A row written "| c0 | c1 | ... |": every cell between "| " and " ",
    and a closing pipe; "|  |" for a row without cells. *)
Definition pipeRow (cells : list str) : str :=
  match cells with
  | [] => [PIPE; SPACE; SPACE; PIPE]
  | _ :: _ =>
      flat_map (fun cell => [PIPE; SPACE] ++ cell ++ [SPACE]) cells ++ [PIPE]
  end.

(** Lines with a line feed between them and none at the end. *)
Definition textOfLines (lines : list str) : str :=
  match lines with
  | [] => []
  | line :: rest => line ++ flat_map (fun l => LF :: l) rest
  end.

(** The text of a formatted table, said in these terms: the header row, the
    separator row of dash runs, then the other rows. *)
Definition tableText (data : Grid) : str :=
  match data with
  | [] => []
  | header :: body =>
      textOfLines
        (pipeRow (emittedCells data header)
           :: pipeRow (dashRuns data)
           :: map (fun row => pipeRow (emittedCells data row)) body)
  end.

(** The row that a retained line contributes, said with the rule of the
    outer pipes: the trimmed pieces between the pipes, without the leading
    piece of a line that starts with a pipe and without the trailing piece of
    a line that ends with one; no row when no cell is left. *)
Definition rowOfPieces (l : str) : Grid :=
  let line := trim l in
  match stripOuterPipes line (map trim (split PIPE line)) with
  | [] => []
  | cell :: cells => [cell :: cells]
  end.

End Spec.

(** ** A runtime to run the sort on

    Lower-casing of the ASCII letters and the comparison of strings by code
    units: what [toLowerCase] and [localeCompare] do on plain ASCII text in a
    locale that orders by code unit. *)

Module AsciiRuntime.

Definition toLowerCase (s : str) : str :=
  map (fun c => if ((65 <=? c) && (c <=? 90))%N then (c + 32)%N else c) s.

Fixpoint localeCompare (a b : str) : Z :=
  match a, b with
  | [], [] => 0
  | [], _ :: _ => -1
  | _ :: _, [] => 1
  | x :: a', y :: b' =>
      match (x ?= y)%N with
      | Lt => -1
      | Gt => 1
      | Eq => localeCompare a' b'
      end
  end.

End AsciiRuntime.

(** * Properties *)

(** ** Lemmas on strings *)

Section StringFacts.

Lemma trimStart_ws_app (ws s : str) :
  forallb isWhiteSpace ws = true -> trimStart (ws ++ s) = trimStart s.
Proof.
  induction ws as [|c ws IH]; simpl; [reflexivity|].
  intros H. apply andb_prop in H as [Hc Hws]. rewrite Hc. auto.
Qed.

Lemma trimStart_all_ws (s : str) :
  forallb isWhiteSpace s = true -> trimStart s = [].
Proof.
  intros H. rewrite <- (app_nil_r s). rewrite trimStart_ws_app; auto.
Qed.

Lemma trimStart_app_cons (a b : str) (c : char) :
  isWhiteSpace c = false -> trimStart (a ++ c :: b) = trimStart a ++ c :: b.
Proof.
  intros Hc. induction a as [|x a IH]; simpl.
  - now rewrite Hc.
  - destruct (isWhiteSpace x); auto.
Qed.

Lemma trimStart_app_ws (s ws : str) :
  forallb isWhiteSpace ws = true ->
  trimStart (s ++ ws) = trimStart s ++ (if forallb isWhiteSpace s then [] else ws).
Proof.
  intros Hws. induction s as [|c s IH]; simpl.
  - now rewrite trimStart_all_ws.
  - destruct (isWhiteSpace c); simpl; auto.
Qed.

Lemma trimStart_head (s : str) :
  trimStart s = [] \/
  exists c t, trimStart s = c :: t /\ isWhiteSpace c = false.
Proof.
  induction s as [|c s IH]; simpl; [now left|].
  destruct (isWhiteSpace c) eqn:Hc; [exact IH|].
  right. now exists c, s.
Qed.

Lemma trimStart_idem (s : str) : trimStart (trimStart s) = trimStart s.
Proof.
  destruct (trimStart_head s) as [->|(c & t & -> & Hc)]; simpl; [reflexivity|].
  now rewrite Hc.
Qed.

Lemma forallb_rev (A : Type) (p : A -> bool) (l : list A) :
  forallb p (rev l) = forallb p l.
Proof.
  induction l as [|x l IH]; simpl; [reflexivity|].
  rewrite forallb_app, IH. simpl. rewrite andb_true_r. apply andb_comm.
Qed.

Lemma trimEnd_app_ws (s ws : str) :
  forallb isWhiteSpace ws = true -> trimEnd (s ++ ws) = trimEnd s.
Proof.
  intros H. unfold trimEnd. rewrite rev_app_distr, trimStart_ws_app; auto.
  now rewrite forallb_rev.
Qed.

Lemma trimEnd_app_cons (a b : str) (c : char) :
  isWhiteSpace c = false -> trimEnd (a ++ c :: b) = a ++ c :: trimEnd b.
Proof.
  intros Hc. unfold trimEnd.
  rewrite rev_app_distr. simpl. rewrite <- app_assoc. simpl.
  rewrite trimStart_app_cons by assumption.
  rewrite rev_app_distr. simpl. rewrite rev_involutive, <- app_assoc.
  reflexivity.
Qed.

Lemma trimEnd_cons (c : char) (s : str) :
  isWhiteSpace c = false -> trimEnd (c :: s) = c :: trimEnd s.
Proof. intros Hc. now apply (trimEnd_app_cons [] s). Qed.

Lemma trimEnd_snoc (s : str) (c : char) :
  isWhiteSpace c = false -> trimEnd (s ++ [c]) = s ++ [c].
Proof. intros Hc. now rewrite trimEnd_app_cons. Qed.

Lemma trimEnd_idem (s : str) : trimEnd (trimEnd s) = trimEnd s.
Proof.
  unfold trimEnd. now rewrite rev_involutive, trimStart_idem.
Qed.

(** Whitespace around a string does not survive [trim]. *)
Lemma trim_pad (ws1 s ws2 : str) :
  forallb isWhiteSpace ws1 = true -> forallb isWhiteSpace ws2 = true ->
  trim (ws1 ++ s ++ ws2) = trim s.
Proof.
  intros H1 H2. unfold trim.
  rewrite trimStart_ws_app, trimStart_app_ws by assumption.
  apply trimEnd_app_ws. now destruct (forallb isWhiteSpace s).
Qed.

(** A trimmed string is empty or begins and ends with a visible unit. *)
Lemma trim_head (s : str) (c : char) (t : str) :
  trim s = c :: t -> isWhiteSpace c = false.
Proof.
  unfold trim.
  destruct (trimStart_head s) as [->|(d & u & -> & Hd)]; [discriminate|].
  rewrite trimEnd_cons by assumption. now intros [= <- _].
Qed.

Lemma trim_last (s t : str) (c : char) :
  trim s = t ++ [c] -> isWhiteSpace c = false.
Proof.
  unfold trim, trimEnd. intros H.
  apply (f_equal (@rev char)) in H.
  rewrite rev_involutive, rev_app_distr in H. simpl in H.
  destruct (trimStart_head (rev (trimStart s))) as [E|(d & u & E & Hd)];
    rewrite E in H; [discriminate|].
  now injection H as -> _.
Qed.

Lemma trim_fixed (c d : char) (m : str) :
  isWhiteSpace c = false -> isWhiteSpace d = false ->
  trim (c :: m ++ [d]) = c :: m ++ [d].
Proof.
  intros Hc Hd. unfold trim. simpl. rewrite Hc.
  exact (trimEnd_snoc (c :: m) d Hd).
Qed.

Lemma trim_idem (s : str) : trim (trim s) = trim s.
Proof.
  unfold trim.
  destruct (trimStart_head s) as [E|(c & t & E & Hc)]; rewrite E;
    [reflexivity|].
  rewrite trimEnd_cons by assumption. simpl. rewrite Hc.
  rewrite trimEnd_cons by assumption. now rewrite trimEnd_idem.
Qed.

Lemma trim_nil : trim [] = [].
Proof. reflexivity. Qed.

End StringFacts.

(** ** Lemmas on [split] and [join] *)

Section SplitJoin.

Lemma split_not_nil (sep : char) (s : str) : split sep s <> [].
Proof.
  destruct s as [|c s]; simpl; [discriminate|].
  destruct (c =? sep)%N; [discriminate|].
  destruct (split sep s); discriminate.
Qed.

Lemma split_cons_other (sep c : char) (s : str) :
  (c =? sep)%N = false ->
  split sep (c :: s) = (c :: hd [] (split sep s)) :: tl (split sep s).
Proof.
  intros H. simpl. rewrite H.
  destruct (split sep s) eqn:E; [now apply split_not_nil in E|reflexivity].
Qed.

Lemma split_no_sep (sep : char) (s : str) :
  includes sep s = false -> split sep s = [s].
Proof.
  induction s as [|c s IH]; simpl; [reflexivity|].
  intros H. apply orb_false_elim in H as [Hc Hs].
  rewrite N.eqb_sym, Hc. now rewrite IH.
Qed.

Lemma split_app_sep (sep : char) (a b : str) :
  includes sep a = false -> split sep (a ++ sep :: b) = a :: split sep b.
Proof.
  induction a as [|c a IH]; simpl.
  - now rewrite N.eqb_refl.
  - intros H. apply orb_false_elim in H as [Hc Ha].
    rewrite N.eqb_sym, Hc. now rewrite IH.
Qed.

Lemma split_join (sep : char) (parts : list str) :
  parts <> [] -> Forall (fun p => includes sep p = false) parts ->
  split sep (join [sep] parts) = parts.
Proof.
  induction parts as [|p rest IH]; [congruence|].
  intros _ H. inversion H as [|? ? Hp Hrest]; subst.
  destruct rest as [|q rest].
  - simpl. now apply split_no_sep.
  - change (join [sep] (p :: q :: rest)) with (p ++ sep :: join [sep] (q :: rest)).
    rewrite split_app_sep by assumption.
    f_equal. apply IH; [discriminate|assumption].
Qed.

(** Splitting a string that ends in [c]. *)
Lemma split_snoc (sep c : char) (s : str) :
  split sep (s ++ [c]) =
  if (c =? sep)%N then split sep s ++ [[]]
  else removelast (split sep s) ++ [last (split sep s) [] ++ [c]].
Proof.
  induction s as [|x s IH].
  - simpl. now destruct (c =? sep)%N.
  - change ((x :: s) ++ [c]) with (x :: (s ++ [c])).
    destruct (x =? sep)%N eqn:Hx.
    + simpl. rewrite Hx. rewrite IH.
      destruct (c =? sep)%N; [reflexivity|].
      destruct (split sep s) eqn:E; [now apply split_not_nil in E|reflexivity].
    + rewrite 2 split_cons_other by assumption. rewrite IH.
      destruct (split sep s) as [|h t] eqn:E; [now apply split_not_nil in E|].
      destruct (c =? sep)%N; simpl; [reflexivity|].
      destruct t as [|h2 t]; simpl; [reflexivity|].
      reflexivity.
Qed.

Lemma includes_app (c : char) (a b : str) :
  includes c (a ++ b) = includes c a || includes c b.
Proof. apply existsb_app. Qed.

Lemma includes_repeat (c d : char) (n : nat) :
  (c =? d)%N = false -> includes c (repeat d n) = false.
Proof.
  intros H. induction n; simpl; [reflexivity|]. now rewrite H.
Qed.

Lemma includes_join (c : char) (sep : str) (parts : list str) :
  includes c sep = false ->
  Forall (fun p => includes c p = false) parts ->
  includes c (join sep parts) = false.
Proof.
  intros Hsep H. induction H as [|p rest Hp Hrest IH]; [reflexivity|].
  destruct rest as [|q rest]; [exact Hp|].
  change (join sep (p :: q :: rest)) with (p ++ sep ++ join sep (q :: rest)).
  now rewrite !includes_app, Hp, Hsep, IH.
Qed.

Lemma forallb_join (p : char -> bool) (sep : str) (parts : list str) :
  forallb p sep = true ->
  Forall (fun s => forallb p s = true) parts ->
  forallb p (join sep parts) = true.
Proof.
  intros Hsep H. induction H as [|s rest Hs Hrest IH]; [reflexivity|].
  destruct rest as [|q rest]; [exact Hs|].
  change (join sep (s :: q :: rest)) with (s ++ sep ++ join sep (q :: rest)).
  now rewrite !forallb_app, Hs, Hsep, IH.
Qed.

End SplitJoin.

(** ** The parser *)

Section ParserFacts.
Import Parser Spec.

Lemma parseLines_from_2 (i : nat) (lines : list str) :
  2 <= i -> parseLines i lines = flat_map rowOfLine lines.
Proof.
  revert i. induction lines as [|l lines IH]; intros i Hi; [reflexivity|].
  simpl. replace (i =? 1) with false by (symmetry; apply Nat.eqb_neq; lia).
  simpl. unfold rowOfLine at 1.
  rewrite IH by lia. now destruct (0 <? length (lineCells (trim l))).
Qed.

Lemma parseLines_rows (i : nat) (lines : list str) :
  Forall (fun row => 1 <= length row) (parseLines i lines).
Proof.
  revert i. induction lines as [|l lines IH]; intros i; simpl; [constructor|].
  destruct ((i =? 1) && isSeparatorRow (trim l)); [apply IH|].
  destruct (0 <? length (lineCells (trim l))) eqn:E; [|apply IH].
  constructor; [|apply IH]. apply Nat.ltb_lt in E. lia.
Qed.

Lemma parseLines_closed_form (lines : list str) :
  parseLines 0 lines = flat_map rowOfLine (withoutSeparator lines).
Proof.
  destruct lines as [|l0 [|l1 rest]]; simpl.
  - reflexivity.
  - unfold rowOfLine. now destruct (0 <? length (lineCells (trim l0))).
  - rewrite (parseLines_from_2 2) by lia.
    remember (flat_map rowOfLine rest) as rows eqn:Erows.
    destruct (isSeparatorRow (trim l1)); cbn [flat_map];
      rewrite <- Erows; unfold rowOfLine;
      destruct (0 <? length (lineCells (trim l0)));
      destruct (0 <? length (lineCells (trim l1))); reflexivity.
Qed.

(** The cells that survive the filter, by the shape of the array. *)
Lemma filterOuter_tail (len : nat) (mid : list str) (y : str) (i : nat) :
  0 < i -> i + length mid = len - 1 ->
  filterOuter len i (mid ++ [y]) = mid ++ (if isEmpty y then [] else [y]).
Proof.
  revert i. induction mid as [|x mid IH]; intros i Hi Hlen; simpl in *.
  - replace (i =? 0) with false by (symmetry; apply Nat.eqb_neq; lia).
    replace (i =? len - 1) with true by (symmetry; apply Nat.eqb_eq; lia).
    now destruct (isEmpty y).
  - replace (i =? 0) with false by (symmetry; apply Nat.eqb_neq; lia).
    replace (i =? len - 1) with false by (symmetry; apply Nat.eqb_neq; lia).
    simpl. f_equal. apply IH; lia.
Qed.

Lemma filterOuter_single (x : str) :
  filterOuter 1 0 [x] = if isEmpty x then [] else [x].
Proof. simpl. now destruct (isEmpty x). Qed.

Lemma filterOuter_outer (x y : str) (mid : list str) :
  filterOuter (length (x :: mid ++ [y])) 0 (x :: mid ++ [y]) =
  (if isEmpty x then [] else [x]) ++ mid ++ (if isEmpty y then [] else [y]).
Proof.
  cbn [filterOuter]. rewrite filterOuter_tail.
  - cbn [length]. rewrite length_app. cbn [length].
    replace (0 =? S (length mid + 1) - 1) with false
      by (symmetry; apply Nat.eqb_neq; lia).
    simpl. now destruct (isEmpty x).
  - lia.
  - cbn [length]. rewrite length_app. simpl. lia.
Qed.

End ParserFacts.

Section OuterPipes.
Import Parser Spec.

Lemma first_cell_empty (l : str) :
  trim l <> [] ->
  isEmpty (trim (hd [] (split PIPE (trim l)))) = startsWith PIPE (trim l).
Proof.
  intros Hne. destruct (trim l) as [|c t] eqn:E; [congruence|].
  pose proof (trim_head _ _ _ E) as Hc.
  destruct (c =? PIPE)%N eqn:Hp.
  - simpl. now rewrite Hp.
  - rewrite split_cons_other by assumption. simpl. rewrite Hp.
    unfold trim. simpl. rewrite Hc. now rewrite trimEnd_cons.
Qed.

Lemma last_cell_empty (l : str) :
  trim l <> [] ->
  isEmpty (trim (last (split PIPE (trim l)) [])) = endsWith PIPE (trim l).
Proof.
  intros Hne. destruct (exists_last Hne) as (t & d & E). rewrite E.
  pose proof (trim_last _ _ _ E) as Hd.
  unfold endsWith. rewrite rev_app_distr. simpl.
  rewrite split_snoc. destruct (d =? PIPE)%N.
  - now rewrite last_last.
  - rewrite last_last. unfold trim.
    rewrite trimStart_app_cons, trimEnd_snoc by assumption.
    now destruct (trimStart (last (split PIPE t) [])).
Qed.

Lemma lineCells_strip (l : str) :
  trim l <> [] ->
  lineCells (trim l) = stripOuterPipes (trim l) (map trim (split PIPE (trim l))).
Proof.
  intros Hne.
  pose proof (first_cell_empty l Hne) as Hfirst.
  pose proof (last_cell_empty l Hne) as Hlast.
  unfold lineCells, stripOuterPipes.
  destruct (split PIPE (trim l)) as [|x rest] eqn:E;
    [now apply split_not_nil in E|].
  destruct rest as [|x2 rest].
  - simpl in Hfirst, Hlast. rewrite <- Hfirst, <- Hlast.
    cbn [map length]. rewrite filterOuter_single.
    now destruct (isEmpty (trim x)).
  - assert (Hr : x2 :: rest <> []) by discriminate.
    destruct (exists_last Hr) as (mid & y & Emid). rewrite Emid in *.
    change (x :: mid ++ [y]) with ((x :: mid) ++ [y]) in Hlast.
    rewrite last_last in Hlast. cbn [hd] in Hfirst.
    rewrite <- Hfirst, <- Hlast.
    cbn [map]. rewrite map_app. cbn [map].
    rewrite filterOuter_outer.
    destruct (isEmpty (trim x)), (isEmpty (trim y)); cbn [tl app];
      rewrite ?app_nil_r; try reflexivity.
    + now rewrite removelast_last.
    + change (trim x :: map trim mid ++ [trim y])
        with ((trim x :: map trim mid) ++ [trim y]).
      now rewrite removelast_last.
Qed.

End OuterPipes.

Section ParserClaims.
Import Parser Spec.

(** C5, as the specification words it, fails: a line that matches the
    separator pattern is kept as a row of the Grid when it is not the second
    non-blank line.  Here the third line is such a line, and the last row of
    the Grid comes from it. *)
Lemma separator_line_kept_at_position_2 :
  let text := js "| a |" ++ [LF] ++ js "| b |" ++ [LF] ++ js "| - |" in
  nth 2 (nonBlankLines text) [] = js "| - |" /\
  isSeparatorRow (trim (js "| - |")) = true /\
  parseMarkdownTable text = [[js "a"]; [js "b"]; [js "-"]].
Proof. vm_compute. repeat split. Qed.

(** C5, amended: the parser discards a line that matches the separator
    pattern exactly when that line is the second non-blank line (position 1);
    the Grid holds, in order, the cells of every other non-blank line that
    has at least one cell. *)
Theorem parse_skips_separator_at_position_1 (tableText : str) :
  parseMarkdownTable tableText =
  flat_map rowOfLine (withoutSeparator (nonBlankLines tableText)).
Proof. apply parseLines_closed_form. Qed.

(** On a non-blank line, trimmed as the parser trims it, the cells are the
    trimmed pieces between the pipes without the outer pieces of a line that
    starts or ends with a pipe, and those outer pieces are empty exactly
    then. *)
Lemma lineCells_outer_pipes (l : str) :
  trim l <> [] ->
  let line := trim l in
  let pieces := map trim (split PIPE line) in
  lineCells line = stripOuterPipes line pieces /\
  isEmpty (hd [] pieces) = startsWith PIPE line /\
  isEmpty (last pieces []) = endsWith PIPE line /\
  lineCells (trim (js "| a | b |")) = [js "a"; js "b"] /\
  lineCells (trim (js "a | b")) = [js "a"; js "b"].
Proof.
  intros Hne line pieces. subst line pieces. repeat split.
  - now apply lineCells_strip.
  - rewrite <- (first_cell_empty l Hne).
    destruct (split PIPE (trim l)) eqn:E; [now apply split_not_nil in E|].
    reflexivity.
  - rewrite <- (last_cell_empty l Hne).
    generalize (split PIPE (trim l)) as segs.
    induction segs as [|s [|s2 segs] IH]; try reflexivity.
    exact IH.
Qed.

Lemma nonBlankLines_not_blank (tableText l : str) :
  In l (nonBlankLines tableText) -> trim l <> [].
Proof.
  unfold nonBlankLines. intros H. apply filter_In in H as [_ H].
  intros E. rewrite E in H. discriminate.
Qed.

Lemma withoutSeparator_sub (lines : list str) (l : str) :
  In l (withoutSeparator lines) -> In l lines.
Proof.
  destruct lines as [|l0 [|l1 rest]]; simpl; auto.
  destruct (isSeparatorRow (trim l1)); simpl; tauto.
Qed.

Lemma rowOfLine_pieces (l : str) :
  trim l <> [] -> rowOfLine l = rowOfPieces l.
Proof.
  intros Hne. unfold rowOfLine, rowOfPieces.
  rewrite (lineCells_strip l Hne).
  now destruct (stripOuterPipes (trim l) (map trim (split PIPE (trim l)))).
Qed.

Lemma flat_map_agree (f g : str -> Grid) (lines : list str) :
  Forall (fun l => f l = g l) lines -> flat_map f lines = flat_map g lines.
Proof.
  induction 1 as [|l lines Hl Hlines IH]; [reflexivity|].
  simpl. now rewrite Hl, IH.
Qed.

(** C6: the Grid the parser returns holds, for every line it retains (the
    non-blank lines but a separator line in second place), the cells got by
    splitting the trimmed line on pipes and trimming each piece, without the
    leading piece exactly when the trimmed line starts with a pipe and
    without the trailing piece exactly when it ends with one; on every
    retained line these outer pieces are empty in exactly these cases.  The
    text "| a | b |" parses to the one row of cells "a" and "b", and so does
    "a | b". *)
Theorem parser_strips_outer_pipes (tableText : str) :
  let retained := withoutSeparator (nonBlankLines tableText) in
  parseMarkdownTable tableText = flat_map rowOfPieces retained /\
  Forall (fun l =>
            let line := trim l in
            let pieces := map trim (split PIPE line) in
            lineCells line = stripOuterPipes line pieces /\
            isEmpty (hd [] pieces) = startsWith PIPE line /\
            isEmpty (last pieces []) = endsWith PIPE line)
         retained /\
  parseMarkdownTable (js "| a | b |") = [[js "a"; js "b"]] /\
  parseMarkdownTable (js "a | b") = [[js "a"; js "b"]].
Proof.
  intros retained.
  assert (Hne : Forall (fun l => trim l <> []) retained).
  { apply Forall_forall. intros l Hin.
    apply (nonBlankLines_not_blank tableText).
    now apply withoutSeparator_sub. }
  split; [|split; [|split; reflexivity]].
  - unfold parseMarkdownTable. rewrite parseLines_closed_form.
    apply flat_map_agree. eapply Forall_impl; [|exact Hne].
    intros l Hl. now apply rowOfLine_pieces.
  - eapply Forall_impl; [|exact Hne]. intros l Hl.
    destruct (lineCells_outer_pipes l Hl) as (H1 & H2 & H3 & _).
    cbv zeta. auto.
Qed.

(** C9: every row of a parsed Grid has at least one cell. *)
Theorem parsed_rows_have_a_cell (tableText : str) :
  Forall (fun row => 1 <= length row) (parseMarkdownTable tableText).
Proof. apply parseLines_rows. Qed.

End ParserClaims.

(** ** The formatter: normalisation and column widths *)

Section FormatterFacts.
Import Formatter Spec.

Lemma row_length_le_maxCols (data : Grid) (row : list str) :
  In row data -> length row <= maxCols data.
Proof.
  intros Hin. unfold maxCols.
  assert (H : Forall (fun k => k <= list_max (map (@length str) data))
                     (map (@length str) data))
    by (apply list_max_le; lia).
  rewrite Forall_forall in H. apply H. now apply in_map.
Qed.

Lemma normalizeRow_length (cols : nat) (row : list str) :
  length row <= cols -> length (normalizeRow cols row) = cols.
Proof.
  intros H. unfold normalizeRow. rewrite length_app, repeat_length. lia.
Qed.

Lemma normalizeRow_full (cols : nat) (row : list str) :
  cols <= length row -> normalizeRow cols row = row.
Proof.
  intros H. unfold normalizeRow.
  replace (cols - length row) with 0 by lia. apply app_nil_r.
Qed.

Lemma normalizeRow_nth (cols i : nat) (row : list str) :
  nth i (normalizeRow cols row) [] = nth i row [].
Proof.
  unfold normalizeRow. destruct (Nat.lt_ge_cases i (length row)) as [H|H].
  - now rewrite app_nth1.
  - rewrite app_nth2 by assumption. rewrite (nth_overflow row) by assumption.
    generalize (i - length row) as k. generalize (cols - length row) as m.
    induction m; destruct k; simpl; auto.
Qed.

Lemma normalizedData_lengths (data : Grid) :
  Forall (fun row => length row = maxCols data) (normalizedData data).
Proof.
  unfold normalizedData. rewrite Forall_map, Forall_forall.
  intros row Hin. apply normalizeRow_length. now apply row_length_le_maxCols.
Qed.

Lemma normalizedData_column (data : Grid) (i : nat) :
  columnWidth (normalizedData data) i = columnWidth data i.
Proof.
  unfold columnWidth, normalizedData. rewrite map_map. f_equal.
  apply map_ext. intros row. now rewrite normalizeRow_nth.
Qed.

(** One pass of the width loop over a row as long as [colWidths]. *)
Lemma widen_some (row : list str) : forall ws : list nat,
  length row = length ws ->
  exists ws', widen (map Some ws) row = map Some ws' /\
              length ws' = length ws /\
              forall i, nth i ws' 0 = Nat.max (nth i ws 0) (length (nth i row [])).
Proof.
  induction row as [|cell row IH]; intros ws Hlen.
  - exists ws. repeat split. intros i.
    destruct i; simpl; now rewrite Nat.max_0_r.
  - destruct ws as [|w ws]; [discriminate|].
    destruct (IH ws) as (ws' & E & L & Hnth); [simpl in Hlen; lia|].
    exists (Nat.max w (length cell) :: ws'). simpl. rewrite E.
    repeat split; [now rewrite L|].
    intros [|i]; [reflexivity|apply Hnth].
Qed.

Lemma fold_widen_some (rows : Grid) : forall ws : list nat,
  Forall (fun row => length row = length ws) rows ->
  exists ws', fold_left widen rows (map Some ws) = map Some ws' /\
              length ws' = length ws /\
              forall i, nth i ws' 0 = Nat.max (nth i ws 0) (columnWidth rows i).
Proof.
  induction rows as [|row rows IH]; intros ws Hall.
  - exists ws. repeat split. intros i. unfold columnWidth. simpl.
    now rewrite Nat.max_0_r.
  - inversion Hall as [|? ? Hrow Hrows]; subst.
    destruct (widen_some row ws Hrow) as (ws1 & E1 & L1 & N1).
    destruct (IH ws1) as (ws2 & E2 & L2 & N2).
    { rewrite L1. exact Hrows. }
    exists ws2. simpl. rewrite E1, E2. repeat split; [congruence|].
    intros i. rewrite N2, N1. unfold columnWidth, list_max. simpl.
    symmetry. apply Nat.max_assoc.
Qed.

(** The width loop computes the column maxima, and no [NaN]. *)
Lemma colWidths_columnWidths (data : Grid) :
  colWidths data = map Some (columnWidths data).
Proof.
  unfold colWidths.
  destruct (fold_widen_some (normalizedData data) (repeat 0 (maxCols data)))
    as (ws & E & L & Hnth).
  { rewrite repeat_length. apply normalizedData_lengths. }
  rewrite map_repeat in E. rewrite E. f_equal.
  rewrite repeat_length in L.
  apply (nth_ext _ _ 0 0).
  - unfold columnWidths. now rewrite length_map, length_seq.
  - intros i Hi. rewrite Hnth, normalizedData_column.
    rewrite nth_repeat. unfold columnWidths.
    rewrite (nth_indep _ 0 (columnWidth data 0))
      by (rewrite length_map, length_seq; lia).
    rewrite (map_nth (columnWidth data)), seq_nth by lia. reflexivity.
Qed.

Lemma columnWidths_length (data : Grid) :
  length (columnWidths data) = maxCols data.
Proof. unfold columnWidths. now rewrite length_map, length_seq. Qed.

Lemma columnWidths_nth (data : Grid) (i : nat) :
  i < maxCols data -> nth i (columnWidths data) 0 = columnWidth data i.
Proof.
  intros Hi. unfold columnWidths.
  rewrite (nth_indep _ 0 (columnWidth data 0))
    by (rewrite length_map, length_seq; lia).
  rewrite (map_nth (columnWidth data)), seq_nth by lia. reflexivity.
Qed.

Lemma cell_length_le_columnWidth (data : Grid) (row : list str) (i : nat) :
  In row data -> length (nth i row []) <= columnWidth data i.
Proof.
  intros Hin. unfold columnWidth.
  set (lens := map (fun r : list str => length (nth i r [])) data).
  assert (H : Forall (fun k => k <= list_max lens) lens)
    by (apply list_max_le; lia).
  rewrite Forall_forall in H. apply H.
  unfold lens. now apply (in_map (fun r : list str => length (nth i r []))).
Qed.

Lemma padEnd_length (w : nat) (cell : str) :
  length cell <= w -> length (padEnd (Some w) cell) = w.
Proof.
  intros H. unfold padEnd. rewrite length_app, repeat_length. simpl. lia.
Qed.

Lemma paddedCells_lengths (row : list str) : forall ws : list nat,
  length row = length ws ->
  (forall i, i < length ws -> length (nth i row []) <= nth i ws 0) ->
  map (@length char) (paddedCells (map Some ws) row) = ws.
Proof.
  induction row as [|cell row IH]; intros ws Hlen Hle.
  - destruct ws; [reflexivity|discriminate].
  - destruct ws as [|w ws]; [discriminate|]. simpl. f_equal.
    + apply padEnd_length. apply (Hle 0). simpl. lia.
    + apply IH; [simpl in Hlen; lia|].
      intros i Hi. apply (Hle (S i)). simpl. lia.
Qed.

Lemma paddedRows_widths (data : Grid) :
  Forall (fun cells => map (@length char) cells = columnWidths data)
         (paddedRows data).
Proof.
  unfold paddedRows. rewrite colWidths_columnWidths.
  rewrite Forall_map, Forall_forall. intros row Hin.
  pose proof (normalizedData_lengths data) as Hall.
  rewrite Forall_forall in Hall.
  apply paddedCells_lengths.
  - rewrite columnWidths_length. now apply Hall.
  - intros i Hi. rewrite columnWidths_length in Hi.
    rewrite columnWidths_nth by assumption.
    rewrite <- normalizedData_column.
    now apply cell_length_le_columnWidth.
Qed.

Lemma generate_lines (data : Grid) :
  generateMarkdownTable data = join [LF] (tableLines data).
Proof. destruct data; reflexivity. Qed.

Lemma paddedCells_nth (row : list str) : forall ws : list nat,
  length row = length ws ->
  paddedCells (map Some ws) row
  = map (fun i => padTo (nth i ws 0) (nth i row [])) (seq 0 (length ws)).
Proof.
  induction row as [|cell row IH]; intros ws Hlen.
  - destruct ws; [reflexivity|discriminate].
  - destruct ws as [|w ws]; [discriminate|].
    cbn [map paddedCells length seq]. f_equal.
    rewrite IH by (simpl in Hlen; lia).
    rewrite <- seq_shift, map_map. reflexivity.
Qed.

(** The padded cells of the source are the cells of each row by column
    position, padded to the column maxima. *)
Lemma paddedRows_emitted (data : Grid) :
  paddedRows data = map (emittedCells data) data.
Proof.
  unfold paddedRows, normalizedData. rewrite colWidths_columnWidths, map_map.
  apply map_ext_in. intros row Hin.
  rewrite paddedCells_nth
    by (rewrite columnWidths_length; apply normalizeRow_length;
        now apply row_length_le_maxCols).
  rewrite columnWidths_length. unfold emittedCells.
  apply map_ext_in. intros i Hi. apply in_seq in Hi.
  rewrite columnWidths_nth by lia. now rewrite normalizeRow_nth.
Qed.

Lemma separatorCells_dashRuns (data : Grid) :
  separatorCells (colWidths data) = dashRuns data.
Proof.
  rewrite colWidths_columnWidths. unfold separatorCells, columnWidths, dashRuns.
  now rewrite !map_map.
Qed.

(** The template of a line puts every cell between "| " and " ". *)
Lemma tableLine_pipeRow (cells : list str) : tableLine cells = pipeRow cells.
Proof.
  unfold tableLine. change (js "| ") with [PIPE; SPACE].
  change (js " |") with [SPACE; PIPE].
  change (js " | ") with [SPACE; PIPE; SPACE].
  induction cells as [|cell cells IH]; [reflexivity|].
  destruct cells as [|cell2 cells].
  - cbn [join pipeRow flat_map]. rewrite app_nil_r, <- !app_assoc.
    reflexivity.
  - change (join [SPACE; PIPE; SPACE] (cell :: cell2 :: cells))
      with (cell ++ [SPACE; PIPE; SPACE]
              ++ join [SPACE; PIPE; SPACE] (cell2 :: cells)).
    assert (E : pipeRow (cell :: cell2 :: cells)
                = ([PIPE; SPACE] ++ cell ++ [SPACE])
                    ++ pipeRow (cell2 :: cells)).
    { unfold pipeRow. cbn [flat_map]. rewrite <- !app_assoc. reflexivity. }
    rewrite E, <- IH, <- !app_assoc. reflexivity.
Qed.

Lemma join_textOfLines (lines : list str) :
  join [LF] lines = textOfLines lines.
Proof.
  induction lines as [|line lines IH]; [reflexivity|].
  destruct lines as [|line2 lines]; [symmetry; apply app_nil_r|].
  change (join [LF] (line :: line2 :: lines))
    with (line ++ LF :: join [LF] (line2 :: lines)).
  rewrite IH. reflexivity.
Qed.

Lemma generate_tableText (data : Grid) :
  generateMarkdownTable data = tableText data.
Proof.
  destruct data as [|header body]; [reflexivity|].
  rewrite generate_lines, join_textOfLines. unfold tableLines.
  rewrite paddedRows_emitted, separatorCells_dashRuns. cbn [map tableText].
  rewrite !tableLine_pipeRow, map_map. f_equal. f_equal. f_equal.
  apply map_ext. intros row. apply tableLine_pipeRow.
Qed.

Lemma padTo_length (w : nat) (cell : str) :
  length cell <= w -> length (padTo w cell) = w.
Proof.
  intros H. unfold padTo. rewrite length_app, repeat_length. lia.
Qed.

Lemma emittedCells_widths (data : Grid) :
  Forall (fun row => map (@length char) (emittedCells data row)
                     = columnWidths data) data.
Proof.
  apply Forall_forall. intros row Hin. unfold emittedCells, columnWidths.
  rewrite map_map. apply map_ext. intros i.
  apply padTo_length. now apply cell_length_le_columnWidth.
Qed.

Lemma dashRuns_widths (data : Grid) :
  map (@length char) (dashRuns data) = columnWidths data.
Proof.
  unfold dashRuns, columnWidths. rewrite map_map. apply map_ext.
  intros i. apply repeat_length.
Qed.

(** C3: the text the Formatter returns is made of one line per row,
    "| c0 | c1 | ... |", with the separator line of dash runs after the
    header and line feeds between the lines; every cell in it is the cell of
    the row in that column (an empty cell where the row is short) padded with
    spaces to the width of the column, which is the maximum cell length in
    that column over all rows, header included; so every emitted cell of a
    column has exactly that width, and the dash run of the column has exactly
    that length.  These emitted cells and dash runs are the [paddedCells] and
    [separatorCells] of the source. *)
Theorem format_padding_correct (data : Grid) :
  generateMarkdownTable data = tableText data /\
  Forall (fun row => map (@length char) (emittedCells data row)
                     = columnWidths data) data /\
  map (@length char) (dashRuns data) = columnWidths data /\
  paddedRows data = map (emittedCells data) data /\
  separatorCells (colWidths data) = dashRuns data /\
  Forall (fun cells => map (@length char) cells = columnWidths data)
         (paddedRows data) /\
  length (paddedRows data) = length data /\
  separatorCells (colWidths data) =
    map (fun w => repeat HYPHEN w) (columnWidths data) /\
  generateMarkdownTable data =
    join [LF] match paddedRows data with
              | [] => []
              | header :: body =>
                  tableLine header
                    :: tableLine (separatorCells (colWidths data))
                    :: map tableLine body
              end.
Proof.
  split; [apply generate_tableText|].
  split; [apply emittedCells_widths|].
  split; [apply dashRuns_widths|].
  split; [apply paddedRows_emitted|].
  split; [apply separatorCells_dashRuns|].
  repeat split.
  - apply paddedRows_widths.
  - unfold paddedRows, normalizedData. now rewrite !length_map.
  - rewrite colWidths_columnWidths. unfold separatorCells.
    now rewrite map_map.
  - apply generate_lines.
Qed.

End FormatterFacts.

(** ** Reading a formatted table back *)

Section RoundTrip.
Import Parser Formatter Spec.

Lemma spaces_are_whitespace (n : nat) :
  forallb isWhiteSpace (repeat SPACE n) = true.
Proof. induction n; simpl; auto. Qed.

Lemma padEnd_trim (w : num) (cell : str) : trim (padEnd w cell) = trim cell.
Proof.
  unfold padEnd.
  apply (trim_pad [] cell (repeat SPACE (toLength w - length cell)));
    [reflexivity|apply spaces_are_whitespace].
Qed.

Lemma paddedCells_trim (row : list str) : forall ws,
  map trim (paddedCells ws row) = map trim row.
Proof.
  induction row as [|cell row IH]; intros ws; [reflexivity|].
  destruct ws; simpl; now rewrite padEnd_trim, IH.
Qed.

Lemma paddedCells_nil (ws : list num) (row : list str) :
  paddedCells ws row = [] -> row = [].
Proof. destruct row, ws; simpl; congruence. Qed.

Lemma paddedCells_excludes (c : char) (row : list str) : forall ws,
  (c =? SPACE)%N = false ->
  Forall (fun cell => includes c cell = false) row ->
  Forall (fun cell => includes c cell = false) (paddedCells ws row).
Proof.
  intros ws Hc H. revert ws.
  induction H as [|cell row Hcell Hrow IH]; intros ws; [constructor|].
  assert (Hpad : forall w, includes c (padEnd w cell) = false).
  { intros w. unfold padEnd.
    now rewrite includes_app, Hcell, includes_repeat. }
  destruct ws; simpl; constructor; auto.
Qed.

Lemma normalizeRow_excludes (c : char) (cols : nat) (row : list str) :
  Forall (fun cell => includes c cell = false) row ->
  Forall (fun cell => includes c cell = false) (normalizeRow cols row).
Proof.
  intros H. unfold normalizeRow. apply Forall_app. split; [exact H|].
  induction (cols - length row); simpl; constructor; auto.
Qed.

Lemma noCell_Forall (c : char) (data : Grid) :
  noCell c data = true ->
  Forall (Forall (fun cell => includes c cell = false)) data.
Proof.
  unfold noCell. rewrite forallb_forall, Forall_forall.
  intros H row Hin. specialize (H row Hin).
  rewrite forallb_forall in H. rewrite Forall_forall.
  intros cell Hcell. specialize (H cell Hcell).
  now apply negb_true_iff in H.
Qed.

Lemma paddedRows_exclude (c : char) (data : Grid) :
  (c =? SPACE)%N = false -> noCell c data = true ->
  Forall (Forall (fun cell => includes c cell = false)) (paddedRows data).
Proof.
  intros Hc H. apply noCell_Forall in H.
  unfold paddedRows, normalizedData. rewrite !Forall_map.
  eapply Forall_impl; [|exact H]. intros row Hrow.
  now apply paddedCells_excludes, normalizeRow_excludes.
Qed.

(** The shape of an emitted line. *)
Lemma tableLine_shape (cells : list str) :
  tableLine cells =
  PIPE :: (SPACE :: join (js " | ") cells ++ [SPACE]) ++ [PIPE].
Proof.
  unfold tableLine. change (js "| ") with [PIPE; SPACE].
  change (js " |") with [SPACE; PIPE]. simpl.
  now rewrite <- app_assoc.
Qed.

Lemma trim_tableLine (cells : list str) :
  trim (tableLine cells) = tableLine cells.
Proof. rewrite tableLine_shape. now apply trim_fixed. Qed.

Lemma tableLine_not_blank (cells : list str) : trim (tableLine cells) <> [].
Proof. rewrite trim_tableLine, tableLine_shape. discriminate. Qed.

Lemma tableLine_excludes (c : char) (cells : list str) :
  (c =? SPACE)%N = false -> (c =? PIPE)%N = false ->
  Forall (fun cell => includes c cell = false) cells ->
  includes c (tableLine cells) = false.
Proof.
  intros Hs Hp H. unfold tableLine.
  rewrite !includes_app, (includes_join c (js " | ") cells); auto.
  - change (js "| ") with [PIPE; SPACE]. change (js " |") with [SPACE; PIPE].
    simpl. now rewrite Hs, Hp.
  - change (js " | ") with [SPACE; PIPE; SPACE]. simpl. now rewrite Hs, Hp.
Qed.

Lemma split_cells (cells : list str) :
  cells <> [] ->
  Forall (fun cell => includes PIPE cell = false) cells ->
  split PIPE (SPACE :: join (js " | ") cells ++ [SPACE; PIPE]) =
  map (fun cell => SPACE :: cell ++ [SPACE]) cells ++ [[]].
Proof.
  induction cells as [|cell rest IH]; [congruence|].
  intros _ H. inversion H as [|? ? Hcell Hrest]; subst.
  destruct rest as [|cell2 rest].
  - cbn [join map].
    replace (SPACE :: cell ++ [SPACE; PIPE])
      with ((SPACE :: cell ++ [SPACE]) ++ PIPE :: [])
      by (simpl; rewrite <- app_assoc; reflexivity).
    rewrite split_app_sep; [reflexivity|].
    simpl. rewrite includes_app, Hcell. reflexivity.
  - change (join (js " | ") (cell :: cell2 :: rest))
      with (cell ++ [SPACE; PIPE; SPACE] ++ join (js " | ") (cell2 :: rest)).
    replace (SPACE :: (cell ++ [SPACE; PIPE; SPACE]
                         ++ join (js " | ") (cell2 :: rest)) ++ [SPACE; PIPE])
      with ((SPACE :: cell ++ [SPACE])
              ++ PIPE :: (SPACE :: join (js " | ") (cell2 :: rest)
                            ++ [SPACE; PIPE]))
      by (simpl; rewrite <- !app_assoc; reflexivity).
    rewrite split_app_sep.
    + rewrite IH by (discriminate || assumption). reflexivity.
    + simpl. rewrite includes_app, Hcell. reflexivity.
Qed.

Lemma lineCells_tableLine (cells : list str) :
  cells <> [] ->
  Forall (fun cell => includes PIPE cell = false) cells ->
  lineCells (tableLine cells) = map trim cells.
Proof.
  intros Hne H. unfold lineCells.
  replace (tableLine cells)
    with ([] ++ PIPE :: (SPACE :: join (js " | ") cells ++ [SPACE; PIPE]))
    by (rewrite tableLine_shape; simpl; rewrite <- app_assoc; reflexivity).
  rewrite split_app_sep by reflexivity.
  rewrite split_cells by assumption.
  cbn [map]. rewrite map_app, map_map. cbn [map].
  rewrite (map_ext (fun cell => trim (SPACE :: cell ++ [SPACE])) trim)
    by (intros cell; now apply (trim_pad [SPACE] cell [SPACE])).
  change (trim []) with (@nil char).
  rewrite filterOuter_outer. simpl. apply app_nil_r.
Qed.

Lemma rowOfLine_tableLine (cells : list str) :
  Forall (fun cell => includes PIPE cell = false) cells ->
  rowOfLine (tableLine cells) = [reparsedRow cells].
Proof.
  intros H. unfold rowOfLine. rewrite trim_tableLine.
  destruct cells as [|cell rest]; [reflexivity|].
  rewrite lineCells_tableLine by (discriminate || assumption).
  reflexivity.
Qed.

Lemma rowsOfLines_tableLines (rows : Grid) :
  Forall (Forall (fun cell => includes PIPE cell = false)) rows ->
  flat_map rowOfLine (map tableLine rows) = map reparsedRow rows.
Proof.
  induction 1 as [|row rows Hrow Hrows IH]; [reflexivity|].
  simpl. now rewrite rowOfLine_tableLine, IH.
Qed.

Lemma dashes_are_separator (ws : list num) :
  isSeparatorRow (trim (tableLine (separatorCells ws))) = true.
Proof.
  rewrite trim_tableLine. unfold isSeparatorRow.
  rewrite tableLine_shape at 1. cbn [isEmpty negb andb].
  unfold tableLine. rewrite !forallb_app.
  rewrite (forallb_join isSeparatorChar); [reflexivity|reflexivity|].
  unfold separatorCells. rewrite Forall_map. apply Forall_forall.
  intros w _. unfold dashes. induction (toLength w); simpl; auto.
Qed.

Lemma filter_all (A : Type) (p : A -> bool) (l : list A) :
  Forall (fun x => p x = true) l -> filter p l = l.
Proof.
  induction 1 as [|x l Hx Hl IH]; simpl; [reflexivity|].
  now rewrite Hx, IH.
Qed.

Lemma nonBlankLines_join (lines : list str) :
  lines <> [] ->
  Forall (fun l => includes LF l = false) lines ->
  Forall (fun l => trim l <> []) lines ->
  nonBlankLines (join [LF] lines) = lines.
Proof.
  intros Hne Hlf Hblank. unfold nonBlankLines.
  rewrite split_join by assumption. apply filter_all.
  eapply Forall_impl; [|exact Hblank].
  intros l Hl. simpl in Hl. now destruct (trim l).
Qed.

Lemma reparsedRow_padded (ws : list num) (row : list str) :
  reparsedRow (paddedCells ws row) = reparsedRow row.
Proof.
  destruct row as [|cell row]; [reflexivity|].
  unfold reparsedRow. rewrite <- (paddedCells_trim (cell :: row) ws).
  now destruct ws.
Qed.

(** What the parser reads back from a formatted Grid whose cells hold no
    pipe and no line feed. *)
Lemma parse_generate (data : Grid) :
  noCell PIPE data = true -> noCell LF data = true ->
  parseMarkdownTable (generateMarkdownTable data) =
  map reparsedRow (normalizedData data).
Proof.
  intros Hpipe Hlf.
  destruct data as [|row0 data']; [reflexivity|].
  set (data := row0 :: data') in *.
  pose proof (paddedRows_exclude PIPE data eq_refl Hpipe) as Ppipe.
  pose proof (paddedRows_exclude LF data eq_refl Hlf) as Plf.
  assert (Eback : map reparsedRow (paddedRows data)
                  = map reparsedRow (normalizedData data)).
  { unfold paddedRows. rewrite map_map. apply map_ext.
    intros row. apply reparsedRow_padded. }
  rewrite <- Eback.
  unfold parseMarkdownTable.
  change (generateMarkdownTable data) with (join [LF] (tableLines data)).
  unfold tableLines in *.
  destruct (paddedRows data) as [|header body] eqn:Erows.
  { discriminate Erows. }
  inversion Ppipe as [|? ? Hh Hb]; subst.
  inversion Plf as [|? ? Lh Lb]; subst.
  rewrite nonBlankLines_join.
  - rewrite parseLines_closed_form. cbn [withoutSeparator].
    rewrite dashes_are_separator. cbn [flat_map map].
    rewrite rowOfLine_tableLine by assumption.
    now rewrite rowsOfLines_tableLines.
  - discriminate.
  - constructor; [now apply tableLine_excludes|].
    constructor.
    + apply tableLine_excludes; try reflexivity.
      unfold separatorCells. rewrite Forall_map. apply Forall_forall.
      intros w _. unfold dashes. now apply includes_repeat.
    + rewrite Forall_map. eapply Forall_impl; [|exact Lb].
      intros cells Hcells. now apply tableLine_excludes.
  - constructor; [apply tableLine_not_blank|].
    constructor; [apply tableLine_not_blank|].
    rewrite Forall_map. apply Forall_forall.
    intros cells _. apply tableLine_not_blank.
Qed.

End RoundTrip.

Section Normalisation.
Import Parser Formatter Spec.

Lemma list_max_const (n : nat) (l : list nat) :
  l <> [] -> Forall (fun k => k = n) l -> list_max l = n.
Proof.
  intros Hne H. induction H as [|k l Hk Hl IH]; [congruence|].
  subst k. destruct l as [|k' l]; cbn [list_max fold_right].
  - apply Nat.max_0_r.
  - unfold list_max in IH. cbn [fold_right] in IH.
    rewrite IH by discriminate. apply Nat.max_id.
Qed.

Lemma maxCols_repeat (row : list str) (k : nat) :
  maxCols (repeat row (S k)) = length row.
Proof.
  unfold maxCols. apply list_max_const; [discriminate|].
  rewrite Forall_map. apply Forall_forall.
  intros r Hr. now apply repeat_spec in Hr as ->.
Qed.

Lemma maxCols_normalizedData (data : Grid) :
  maxCols (normalizedData data) = maxCols data.
Proof.
  destruct data as [|row data]; [reflexivity|].
  unfold maxCols at 1. apply list_max_const.
  - discriminate.
  - rewrite Forall_map. apply normalizedData_lengths.
Qed.

Lemma normalizedData_idem (data : Grid) :
  normalizedData (normalizedData data) = normalizedData data.
Proof.
  unfold normalizedData at 1. rewrite maxCols_normalizedData.
  pose proof (normalizedData_lengths data) as H.
  induction H as [|row rows Hrow Hrows IH]; [reflexivity|].
  simpl. rewrite IH. f_equal. apply normalizeRow_full. lia.
Qed.

Lemma generate_normalizedData (data : Grid) :
  generateMarkdownTable (normalizedData data) = generateMarkdownTable data.
Proof.
  rewrite !generate_lines. f_equal.
  unfold tableLines, paddedRows, colWidths.
  now rewrite normalizedData_idem, maxCols_normalizedData.
Qed.

Lemma sameLength_maxCols (row0 : list str) (data : Grid) :
  sameLength (row0 :: data) = true ->
  Forall (fun row => length row = maxCols (row0 :: data)) (row0 :: data).
Proof.
  simpl. intros H.
  assert (Hall : Forall (fun row => length row = length row0) (row0 :: data)).
  { constructor; [reflexivity|]. rewrite forallb_forall in H.
    apply Forall_forall. intros row Hin. now apply Nat.eqb_eq, H. }
  assert (E : maxCols (row0 :: data) = length row0).
  { unfold maxCols. apply list_max_const; [discriminate|].
    now rewrite Forall_map. }
  now rewrite E.
Qed.

Lemma sameLength_normalizedData (data : Grid) :
  sameLength data = true -> normalizedData data = data.
Proof.
  destruct data as [|row0 data]; [reflexivity|].
  intros H. apply sameLength_maxCols in H.
  unfold normalizedData. generalize dependent (maxCols (row0 :: data)).
  intros n H. induction H as [|row rows Hrow Hrows IH]; [reflexivity|].
  simpl. rewrite IH. f_equal. apply normalizeRow_full. lia.
Qed.

Lemma reparsedRow_trim (rows : Grid) :
  Forall (fun row => row <> []) rows ->
  map reparsedRow rows = map (map trim) rows.
Proof.
  induction 1 as [|row rows Hrow Hrows IH]; [reflexivity|].
  simpl. rewrite IH. now destruct row.
Qed.

Lemma strEqb_eq (a b : str) : strEqb a b = true -> a = b.
Proof. unfold strEqb. now destruct (list_eq_dec N.eq_dec a b). Qed.

Lemma trimmedCells_map (data : Grid) :
  trimmedCells data = true -> map (map trim) data = data.
Proof.
  unfold trimmedCells. rewrite forallb_forall. intros H.
  rewrite <- (map_id data) at 2. apply map_ext_in. intros row Hrow.
  specialize (H row Hrow). rewrite forallb_forall in H.
  rewrite <- (map_id row) at 2. apply map_ext_in. intros cell Hcell.
  now apply strEqb_eq, H.
Qed.

Lemma map_trim_normalizedData (data : Grid) :
  map (map trim) (normalizedData data) = normalizedData (map (map trim) data).
Proof.
  unfold normalizedData.
  assert (E : maxCols (map (map trim) data) = maxCols data).
  { unfold maxCols. rewrite map_map. f_equal. apply map_ext.
    intros row. apply length_map. }
  rewrite E, !map_map. apply map_ext. intros row.
  unfold normalizeRow. rewrite map_app, map_repeat, length_map. reflexivity.
Qed.

(** The two Grids without a column that print alike. *)
Lemma fold_widen_blank (k : nat) :
  fold_left widen (repeat [[]] k) [Some 0] = [Some 0].
Proof. induction k; simpl; auto. Qed.

Lemma fold_widen_empty (k : nat) :
  fold_left widen (repeat [] k) [] = [].
Proof. induction k; simpl; auto. Qed.

Lemma tableLines_blank (k : nat) :
  tableLines (repeat [[]] (S k)) = repeat (js "|  |") (S (S k)).
Proof.
  unfold tableLines, paddedRows, colWidths, normalizedData.
  rewrite maxCols_repeat, map_repeat.
  change (normalizeRow (length [@nil char]) [[]]) with [@nil char].
  change (repeat (Some 0) (length [@nil char])) with [Some 0].
  rewrite fold_widen_blank, map_repeat. cbn [repeat].
  rewrite map_repeat. reflexivity.
Qed.

Lemma tableLines_empty (k : nat) :
  tableLines (repeat [] (S k)) = repeat (js "|  |") (S (S k)).
Proof.
  unfold tableLines, paddedRows, colWidths, normalizedData.
  rewrite maxCols_repeat, map_repeat.
  change (normalizeRow (length (@nil str)) []) with (@nil str).
  change (repeat (Some 0) (length (@nil str))) with (@nil num).
  rewrite fold_widen_empty, map_repeat. cbn [repeat].
  rewrite map_repeat. reflexivity.
Qed.

Lemma no_columns (data : Grid) :
  maxCols data = 0 -> data = repeat [] (length data).
Proof.
  intros H. induction data as [|row data IH]; [reflexivity|].
  assert (Hrow : length row <= 0)
    by (rewrite <- H; apply row_length_le_maxCols; now left).
  assert (Hdata : maxCols data = 0).
  { unfold maxCols in *. cbn [map list_max fold_right] in H.
    unfold list_max. lia. }
  destruct row; [|simpl in Hrow; lia].
  simpl. now rewrite <- IH.
Qed.

End Normalisation.

Section ParsedGrids.
Import Parser Formatter Spec.

Lemma reformat_clean (data : Grid) :
  trimmedCells data = true ->
  noCell PIPE data = true -> noCell LF data = true ->
  generateMarkdownTable (parseMarkdownTable (generateMarkdownTable data))
  = generateMarkdownTable data.
Proof.
  intros Htrim Hpipe Hlf. rewrite parse_generate by assumption.
  destruct (Nat.eq_dec (maxCols data) 0) as [Hzero|Hcols].
  - assert (Hnorm : normalizedData data = data).
    { unfold normalizedData. rewrite Hzero.
      rewrite <- (map_id data) at 2. apply map_ext. intros row.
      apply normalizeRow_full. lia. }
    rewrite Hnorm, (no_columns data Hzero), map_repeat.
    cbn [reparsedRow]. rewrite !generate_lines.
    destruct (length data) as [|k]; [reflexivity|].
    now rewrite tableLines_blank, tableLines_empty.
  - rewrite reparsedRow_trim.
    + rewrite map_trim_normalizedData, trimmedCells_map by assumption.
      apply generate_normalizedData.
    + eapply Forall_impl; [|apply normalizedData_lengths].
      intros row Hlen Hnil. subst row. simpl in Hlen. lia.
Qed.


Lemma split_excludes_sep (sep : char) (s : str) :
  Forall (fun piece => includes sep piece = false) (split sep s).
Proof.
  induction s as [|c s IH]; simpl; [repeat constructor|].
  destruct (c =? sep)%N eqn:E; [now constructor|].
  destruct (split sep s) as [|h t]; [repeat constructor; simpl|].
  - now rewrite N.eqb_sym, E.
  - inversion IH as [|? ? Hh Ht]; subst. constructor; [|exact Ht].
    simpl. now rewrite N.eqb_sym, E.
Qed.

Lemma split_excludes (c sep : char) (s : str) :
  includes c s = false ->
  Forall (fun piece => includes c piece = false) (split sep s).
Proof.
  induction s as [|x s IH]; simpl; [repeat constructor|].
  intros H. apply orb_false_elim in H as [Hx Hs]. specialize (IH Hs).
  destruct (x =? sep)%N; [now constructor|].
  destruct (split sep s) as [|h t]; [repeat constructor; simpl; now rewrite Hx|].
  inversion IH as [|? ? Hh Ht]; subst. constructor; [|exact Ht].
  simpl. now rewrite Hx.
Qed.

Lemma trimStart_excludes (c : char) (s : str) :
  includes c s = false -> includes c (trimStart s) = false.
Proof.
  induction s as [|x s IH]; simpl; [reflexivity|].
  intros H. destruct (isWhiteSpace x); [|exact H].
  apply orb_false_elim in H as [_ Hs]. auto.
Qed.

Lemma includes_rev (c : char) (s : str) : includes c (rev s) = includes c s.
Proof.
  induction s as [|x s IH]; simpl; [reflexivity|].
  rewrite includes_app, IH. simpl. rewrite orb_false_r. apply orb_comm.
Qed.

Lemma trim_excludes (c : char) (s : str) :
  includes c s = false -> includes c (trim s) = false.
Proof.
  intros H. unfold trim, trimEnd. rewrite includes_rev.
  apply trimStart_excludes. rewrite includes_rev.
  now apply trimStart_excludes.
Qed.

Lemma filterOuter_Forall (P : str -> Prop) (cells : list str) :
  forall len i, Forall P cells -> Forall P (filterOuter len i cells).
Proof.
  induction cells as [|cell cells IH]; intros len i H; simpl; [constructor|].
  inversion H; subst.
  destruct (negb ((i =? 0) && isEmpty cell)
            && negb ((i =? len - 1) && isEmpty cell)); auto.
Qed.

Lemma lineCells_clean (line : str) :
  includes LF line = false -> Forall cleanCell (lineCells line).
Proof.
  intros Hlf. unfold lineCells. apply filterOuter_Forall.
  rewrite Forall_map.
  pose proof (split_excludes_sep PIPE line) as Hp.
  pose proof (split_excludes LF PIPE line Hlf) as Hl.
  rewrite Forall_forall in *. intros piece Hin. repeat split.
  - apply trim_idem.
  - apply trim_excludes. now apply Hp.
  - apply trim_excludes. now apply Hl.
Qed.

Lemma parseLines_clean (lines : list str) : forall i,
  Forall (fun l => includes LF l = false) lines ->
  Forall (Forall cleanCell) (parseLines i lines).
Proof.
  induction lines as [|l lines IH]; intros i H; simpl; [constructor|].
  inversion H as [|? ? Hl Hlines]; subst.
  destruct ((i =? 1) && isSeparatorRow (trim l)); [now apply IH|].
  destruct (0 <? length (lineCells (trim l))); [|now apply IH].
  constructor; [|now apply IH].
  now apply lineCells_clean, trim_excludes.
Qed.

Lemma strEqb_refl (a : str) : strEqb a a = true.
Proof. unfold strEqb. now destruct (list_eq_dec N.eq_dec a a). Qed.

(** Every parsed Grid is in the form the formatter reproduces. *)
Lemma parsed_grid_clean (tableText : str) :
  let data := parseMarkdownTable tableText in
  trimmedCells data = true /\ noCell PIPE data = true /\
  noCell LF data = true.
Proof.
  assert (H : Forall (Forall cleanCell) (parseMarkdownTable tableText)).
  { apply parseLines_clean. unfold nonBlankLines.
    pose proof (split_excludes_sep LF tableText) as Hs.
    rewrite Forall_forall in *. intros l Hin.
    apply filter_In in Hin as [Hin _]. now apply Hs. }
  cbv zeta. unfold trimmedCells, noCell. rewrite !forallb_forall.
  rewrite Forall_forall in H.
  repeat split; intros row Hrow; specialize (H row Hrow);
    rewrite forallb_forall; rewrite Forall_forall in H;
    intros cell Hcell; destruct (H cell Hcell) as (Ht & Hp & Hl).
  - rewrite Ht. apply strEqb_refl.
  - now rewrite Hp.
  - now rewrite Hl.
Qed.

(** Formatting what was parsed is stable: parsing that text and formatting
    again changes nothing. *)
Corollary reformat_parsed (tableText : str) :
  let text := generateMarkdownTable (parseMarkdownTable tableText) in
  generateMarkdownTable (parseMarkdownTable text) = text.
Proof.
  cbv zeta. destruct (parsed_grid_clean tableText) as (Ht & Hp & Hl).
  now apply reformat_clean.
Qed.

End ParsedGrids.

Section RoundTripClaims.
Import Parser Formatter Spec.

(** C1, as the specification words it, fails twice over: a cell with a line
    break is split over two rows, and a Grid whose rows have no cell comes
    back with one empty cell per row.  Both Grids are non-ragged and free of
    pipes. *)
Lemma round_trip_breaks_on_line_feed_and_on_no_column :
  (let data := [[js "a" ++ [LF] ++ js "b"]] in
   sameLength data = true /\ noCell PIPE data = true /\
   map (map trim) (parseMarkdownTable (generateMarkdownTable data))
   <> map (map trim) data) /\
  (let data := [[]] in
   sameLength data = true /\ noCell PIPE data = true /\
   map (map trim) (parseMarkdownTable (generateMarkdownTable data))
   <> map (map trim) data).
Proof. vm_compute. repeat split; discriminate. Qed.

(** C1, amended: for every non-ragged Grid whose rows have at least one
    cell and whose cells contain no pipe and no line feed, formatting and
    re-parsing yields the Grid of the trimmed cells of the original, row by
    row. *)
Theorem round_trip_trimmed (data : Grid) :
  sameLength data = true -> noEmptyRow data = true ->
  noCell PIPE data = true -> noCell LF data = true ->
  parseMarkdownTable (generateMarkdownTable data) = map (map trim) data /\
  map (map trim) (parseMarkdownTable (generateMarkdownTable data))
  = map (map trim) data.
Proof.
  intros Hsame Hrows Hpipe Hlf.
  assert (E : parseMarkdownTable (generateMarkdownTable data)
              = map (map trim) data).
  { rewrite parse_generate by assumption.
    rewrite sameLength_normalizedData by assumption.
    apply reparsedRow_trim. unfold noEmptyRow in Hrows.
    rewrite forallb_forall in Hrows. apply Forall_forall.
    intros row Hin Hnil. specialize (Hrows row Hin). now subst row. }
  split; [exact E|]. rewrite E, map_map. apply map_ext. intros row.
  rewrite map_map. apply map_ext. intros cell. apply trim_idem.
Qed.

Lemma round_trip_trimmed_witness :
  let data := [[js " Name"; js "Age "]; [js "Ann"; js ""]] in
  parseMarkdownTable (generateMarkdownTable data) = map (map trim) data /\
  map (map trim) (parseMarkdownTable (generateMarkdownTable data))
  = map (map trim) data.
Proof.
  exact (round_trip_trimmed [[js " Name"; js "Age "]; [js "Ann"; js ""]]
           eq_refl eq_refl eq_refl eq_refl).
Defined.

(** C2, as the specification words it, fails: surrounding whitespace in a
    cell, a pipe in a cell and a line break in a cell each change the text on
    the second formatting. *)
Lemma reformat_changes_text :
  (let data := [[js " a"]] in
   generateMarkdownTable (parseMarkdownTable (generateMarkdownTable data))
   <> generateMarkdownTable data) /\
  (let data := [[js "a|b"]] in
   generateMarkdownTable (parseMarkdownTable (generateMarkdownTable data))
   <> generateMarkdownTable data) /\
  (let data := [[js "a" ++ [LF] ++ js "b"]] in
   generateMarkdownTable (parseMarkdownTable (generateMarkdownTable data))
   <> generateMarkdownTable data).
Proof. vm_compute. repeat split; discriminate. Qed.

(** C2, amended: for every Grid, ragged or not, whose cells have no leading
    or trailing whitespace and contain no pipe and no line feed, formatting,
    parsing back and formatting again gives the text of the first
    formatting. *)
Theorem format_idempotent (data : Grid) :
  trimmedCells data = true ->
  noCell PIPE data = true -> noCell LF data = true ->
  generateMarkdownTable (parseMarkdownTable (generateMarkdownTable data))
  = generateMarkdownTable data.
Proof. apply reformat_clean. Qed.

Lemma format_idempotent_witness :
  let data := [[js "Name"; js "Age"]; [js "Ann"]] in
  generateMarkdownTable (parseMarkdownTable (generateMarkdownTable data))
  = generateMarkdownTable data.
Proof.
  exact (format_idempotent [[js "Name"; js "Age"]; [js "Ann"]]
           eq_refl eq_refl eq_refl).
Defined.

End RoundTripClaims.

(** ** The sort *)

Section StableSort.
Variable A : Type.
Variable compare : A -> A -> Z.

(** A consistent comparator, as ECMAScript asks of the argument of
    [sort]: swapping the arguments flips the sign, and "not after" is
    transitive. *)
Hypothesis compare_flip :
  forall a b, Z.sgn (compare b a) = (- Z.sgn (compare a b))%Z.
Hypothesis compare_trans :
  forall a b c,
    (compare a b <= 0 -> compare b c <= 0 -> compare a c <= 0)%Z.

Lemma compare_after (a b : A) :
  (compare a b <=? 0)%Z = false -> Spec.notAfter compare b a.
Proof.
  intros H. apply Z.leb_gt in H. unfold Spec.notAfter.
  pose proof (compare_flip a b) as F.
  destruct (compare a b), (compare b a); simpl in F; lia || discriminate.
Qed.

Lemma compare_ties (p a b : A) :
  compare p a = 0%Z -> compare p b = 0%Z -> compare a b = 0%Z.
Proof.
  intros Ha Hb.
  assert (Hap : compare a p = 0%Z).
  { pose proof (compare_flip p a) as F. rewrite Ha in F.
    destruct (compare a p); simpl in F; lia || discriminate. }
  assert (Hbp : compare b p = 0%Z).
  { pose proof (compare_flip p b) as F. rewrite Hb in F.
    destruct (compare b p); simpl in F; lia || discriminate. }
  assert (H1 : (compare a b <= 0)%Z) by (apply (compare_trans a p b); lia).
  assert (H2 : (compare b a <= 0)%Z) by (apply (compare_trans b p a); lia).
  pose proof (compare_flip a b) as F.
  destruct (compare a b), (compare b a); simpl in F; lia || discriminate.
Qed.

Lemma insert_perm (a : A) (l : list A) :
  Permutation (a :: l) (SortCommand.insert compare a l).
Proof.
  induction l as [|b l IH]; simpl; [reflexivity|].
  destruct (compare a b <=? 0)%Z; [reflexivity|].
  rewrite perm_swap. now constructor.
Qed.

Lemma sort_perm (l : list A) : Permutation l (SortCommand.sort compare l).
Proof.
  induction l as [|a l IH]; simpl; [constructor|].
  rewrite <- insert_perm. now constructor.
Qed.

Lemma insert_sorted (a : A) (l : list A) :
  StronglySorted (Spec.notAfter compare) l ->
  StronglySorted (Spec.notAfter compare) (SortCommand.insert compare a l).
Proof.
  induction 1 as [|b l Hl IH Hb]; simpl.
  - repeat constructor.
  - destruct (compare a b <=? 0)%Z eqn:E.
    + apply Z.leb_le in E. constructor; [now constructor|].
      constructor; [exact E|].
      eapply Forall_impl; [|exact Hb].
      intros c Hc. now apply (compare_trans a b c).
    + constructor; [exact IH|].
      eapply Permutation_Forall; [apply insert_perm|].
      constructor; [now apply compare_after|exact Hb].
Qed.

Lemma sort_sorted (l : list A) :
  StronglySorted (Spec.notAfter compare) (SortCommand.sort compare l).
Proof.
  induction l as [|a l IH]; simpl; [constructor|].
  now apply insert_sorted.
Qed.

Lemma insert_ties (p a : A) (l : list A) :
  Spec.ties compare p (SortCommand.insert compare a l)
  = Spec.ties compare p (a :: l).
Proof.
  induction l as [|b l IH]; [reflexivity|].
  cbn [SortCommand.insert]. destruct (compare a b <=? 0)%Z eqn:E;
    [reflexivity|].
  unfold Spec.ties in *. cbn [filter] in *. rewrite IH.
  destruct (compare p a =? 0)%Z eqn:Ea; [|reflexivity].
  destruct (compare p b =? 0)%Z eqn:Eb; [|reflexivity].
  apply Z.eqb_eq in Ea, Eb. apply Z.leb_gt in E.
  pose proof (compare_ties p a b Ea Eb). lia.
Qed.

Lemma sort_ties (p : A) (l : list A) :
  Spec.ties compare p (SortCommand.sort compare l) = Spec.ties compare p l.
Proof.
  induction l as [|a l IH]; [reflexivity|].
  cbn [SortCommand.sort fold_right].
  fold (SortCommand.sort compare l). rewrite insert_ties.
  unfold Spec.ties in *. cbn [filter]. now rewrite IH.
Qed.
End StableSort.

Section AsciiOrder.
Import AsciiRuntime.

Lemma localeCompare_flip (a : str) : forall b,
  Z.sgn (localeCompare b a) = (- Z.sgn (localeCompare a b))%Z.
Proof.
  induction a as [|x a IH]; intros [|y b]; try reflexivity.
  simpl. rewrite (N.compare_antisym x y).
  destruct (x ?= y)%N; simpl; auto.
Qed.

Lemma localeCompare_trans (a : str) : forall b c,
  (localeCompare a b <= 0 -> localeCompare b c <= 0 ->
   localeCompare a c <= 0)%Z.
Proof.
  induction a as [|x a IH]; intros [|y b] [|z c]; simpl; try lia.
  destruct (N.compare_spec x y), (N.compare_spec y z), (N.compare_spec x z);
    subst; try lia; eauto.
Qed.

End AsciiOrder.

Section SortClaims.
Import Parser Formatter SortCommand Spec.

Variable toLowerCase : str -> str.
Variable localeCompare : str -> str -> Z.

Hypothesis localeCompare_sign :
  forall a b, Z.sgn (localeCompare b a) = (- Z.sgn (localeCompare a b))%Z.
Hypothesis localeCompare_order :
  forall a b c,
    (localeCompare a b <= 0 -> localeCompare b c <= 0 ->
     localeCompare a c <= 0)%Z.

Lemma compareRows_flip (ascending : bool) (a b : list str) :
  Z.sgn (compareRows toLowerCase localeCompare ascending b a)
  = (- Z.sgn (compareRows toLowerCase localeCompare ascending a b))%Z.
Proof. unfold compareRows. destruct ascending; apply localeCompare_sign. Qed.

Lemma compareRows_trans (ascending : bool) (a b c : list str) :
  (compareRows toLowerCase localeCompare ascending a b <= 0 ->
   compareRows toLowerCase localeCompare ascending b c <= 0 ->
   compareRows toLowerCase localeCompare ascending a c <= 0)%Z.
Proof.
  unfold compareRows. destruct ascending; intros H1 H2.
  - eapply localeCompare_order; eassumption.
  - eapply localeCompare_order; eassumption.
Qed.

(** C4: with more than one row, the sort keeps row 0 in place and puts the
    other rows in the order of their keys, a key being the first cell
    trimmed and lower-cased and the order that of [localeCompare], ascending
    or descending as asked; the sorted rows are the data rows rearranged, and
    rows whose keys compare equal keep their relative order. *)
Theorem sort_by_first_column (ascending : bool) (tableData : Grid) :
  1 < length tableData ->
  exists sortedRows,
    sortedTableData toLowerCase localeCompare ascending tableData
      = Some (hd [] tableData :: sortedRows) /\
    Permutation (tl tableData) sortedRows /\
    StronglySorted
      (fun a b =>
         let aKey := toLowerCase (trim (hd [] a)) in
         let bKey := toLowerCase (trim (hd [] b)) in
         if ascending then (localeCompare aKey bKey <= 0)%Z
         else (localeCompare bKey aKey <= 0)%Z)
      sortedRows /\
    forall p,
      ties (compareRows toLowerCase localeCompare ascending) p sortedRows
      = ties (compareRows toLowerCase localeCompare ascending) p (tl tableData).
Proof.
  intros Hlen.
  destruct tableData as [|headerRow [|row dataRows]];
    [simpl in Hlen; lia|simpl in Hlen; lia|].
  set (compare := compareRows toLowerCase localeCompare ascending).
  exists (sort compare (row :: dataRows)). cbn [hd tl]. repeat split.
  - apply sort_perm.
  - pose proof (sort_sorted _ compare (compareRows_flip ascending)
                  (compareRows_trans ascending) (row :: dataRows)) as S.
    eapply StronglySorted_ind with
      (P := StronglySorted _); [constructor| |exact S].
    intros a l _ IH Ha. constructor; [exact IH|].
    eapply Forall_impl; [|exact Ha].
    intros b Hb. unfold compare, compareRows, sortValue in Hb.
    destruct ascending, a, b; exact Hb.
  - intros p. apply sort_ties.
    + apply compareRows_flip.
    + apply compareRows_trans.
Qed.

(** C8: when the parsed Grid has one row or none, the sort command only
    tells the user that the table has no data rows: nothing is sorted and no
    edit of the document is made. *)
Theorem sort_without_data_rows
        (document : list str) (startLine endLine : nat) (ascending : bool)
        (tableText : str) :
  extractTableText document startLine endLine = Some tableText ->
  length (parseMarkdownTable tableText) <= 1 ->
  sortedTableData toLowerCase localeCompare ascending
    (parseMarkdownTable tableText) = None /\
  sortTable toLowerCase localeCompare document startLine endLine ascending
  = Some [ShowInformationMessage "Table has no data rows to sort"].
Proof.
  intros Htext Hlen. unfold sortTable. rewrite Htext.
  destruct (parseMarkdownTable tableText) as [|headerRow [|row rows]];
    simpl in *; try lia; split; reflexivity.
Qed.

End SortClaims.

Lemma sort_by_first_column_witness :
  let tableData := [[js "Name"]; [js "b"]; [js "A"]; [js " c"]; [js "a"]] in
  exists sortedRows,
    SortCommand.sortedTableData AsciiRuntime.toLowerCase
      AsciiRuntime.localeCompare true tableData
      = Some (hd [] tableData :: sortedRows) /\
    Permutation (tl tableData) sortedRows /\
    StronglySorted
      (fun a b =>
         let aKey := AsciiRuntime.toLowerCase (trim (hd [] a)) in
         let bKey := AsciiRuntime.toLowerCase (trim (hd [] b)) in
         if true then (AsciiRuntime.localeCompare aKey bKey <= 0)%Z
         else (AsciiRuntime.localeCompare bKey aKey <= 0)%Z)
      sortedRows /\
    forall p,
      Spec.ties (SortCommand.compareRows AsciiRuntime.toLowerCase
                   AsciiRuntime.localeCompare true) p sortedRows
      = Spec.ties (SortCommand.compareRows AsciiRuntime.toLowerCase
                     AsciiRuntime.localeCompare true) p (tl tableData).
Proof.
  apply (sort_by_first_column AsciiRuntime.toLowerCase
           AsciiRuntime.localeCompare
           (fun a b => localeCompare_flip a b)
           (fun a b c => localeCompare_trans a b c) true).
  simpl. lia.
Defined.

Lemma sort_without_data_rows_witness :
  let document := [js "# Title"; js "| Name |"; js "| ---- |"] in
  SortCommand.sortedTableData AsciiRuntime.toLowerCase
    AsciiRuntime.localeCompare true
    (Parser.parseMarkdownTable (js "| Name |" ++ [LF] ++ js "| ---- |"))
  = None /\
  SortCommand.sortTable AsciiRuntime.toLowerCase AsciiRuntime.localeCompare
    document 1 2 true
  = Some [ShowInformationMessage "Table has no data rows to sort"].
Proof.
  apply (sort_without_data_rows AsciiRuntime.toLowerCase
           AsciiRuntime.localeCompare
           [js "# Title"; js "| Name |"; js "| ---- |"] 1 2 true).
  - reflexivity.
  - vm_compute. lia.
Defined.

(** The example of the specification: "b", "a", "c" under a header. *)
Example sort_b_a_c :
  let tableData := [[js "Name"]; [js "b"]; [js "a"]; [js "c"]] in
  SortCommand.sortedTableData AsciiRuntime.toLowerCase
    AsciiRuntime.localeCompare true tableData
  = Some [[js "Name"]; [js "a"]; [js "b"]; [js "c"]] /\
  SortCommand.sortedTableData AsciiRuntime.toLowerCase
    AsciiRuntime.localeCompare false tableData
  = Some [[js "Name"]; [js "c"]; [js "b"]; [js "a"]].
Proof. split; reflexivity. Qed.

(** ** Removing the last row and the last column *)

Section WebviewClaims.
Import Webview Spec.

Lemma removelast_length (A : Type) (l : list A) :
  length (removelast l) = length l - 1.
Proof.
  induction l as [|a [|b l] IH]; try reflexivity.
  change (removelast (a :: b :: l)) with (a :: removelast (b :: l)).
  cbn [length] in *. rewrite IH. lia.
Qed.

(** C7, as the specification words it, fails on a ragged Grid: the guard
    looks at row 0 only, and a shorter row can lose its only cell. *)
Lemma remove_last_column_empties_short_row :
  let tableData := [[js "a"; js "b"]; [js "c"]] in
  1 < length (hd [] tableData) /\
  removeLastColumn tableData = [[js "a"]; []] /\
  ~ Forall (fun row => 1 <= length row) (removeLastColumn tableData).
Proof.
  repeat split; [simpl; lia|].
  intros H. inversion H as [|? ? _ H']; subst.
  inversion H' as [|? ? Hrow _]; subst. simpl in Hrow. lia.
Qed.

(** C7, amended: removing the last row of a Grid with exactly one row
    changes nothing; removing the last column changes nothing unless row 0
    has more than one cell; when it acts, it removes the final cell of every
    row that has one, so that row 0 keeps at least one cell, and so does
    every row when the rows all have the same length. *)
Theorem remove_last_keeps_header_and_column (tableData : Grid) :
  (length tableData = 1 -> removeLastRow tableData = tableData) /\
  (length (hd [] tableData) <= 1 -> removeLastColumn tableData = tableData) /\
  (1 < length (hd [] tableData) ->
   removeLastColumn tableData = map (@removelast str) tableData /\
   Forall2 (fun row row' => length row' = length row - 1)
           tableData (removeLastColumn tableData) /\
   1 <= length (hd [] (removeLastColumn tableData)) /\
   (sameLength tableData = true ->
    Forall (fun row => 1 <= length row) (removeLastColumn tableData))).
Proof.
  split; [|split].
  - intros H. unfold removeLastRow. now rewrite H.
  - intros H. destruct tableData as [|row0 rows]; [reflexivity|].
    simpl in *. now replace (1 <? length row0) with false
      by (symmetry; apply Nat.ltb_ge; lia).
  - intros H. destruct tableData as [|row0 rows]; [simpl in H; lia|].
    cbn [hd] in H.
    assert (E : removeLastColumn (row0 :: rows)
                = map (@removelast str) (row0 :: rows)).
    { unfold removeLastColumn.
      now replace (1 <? length row0) with true
        by (symmetry; apply Nat.ltb_lt; lia). }
    rewrite E. repeat split.
    + generalize (row0 :: rows) as data.
      induction data as [|row data IH]; simpl; constructor; auto.
      apply removelast_length.
    + cbn [map hd]. rewrite removelast_length. lia.
    + intros Hsame. apply sameLength_maxCols in Hsame.
      rewrite Forall_map.
      assert (Hcols : Formatter.maxCols (row0 :: rows) = length row0)
        by (inversion Hsame; subst; congruence).
      eapply Forall_impl; [|exact Hsame].
      intros row Hrow. simpl in Hrow. rewrite removelast_length. lia.
Qed.

Lemma remove_last_keeps_header_and_column_witness :
  removeLastRow [[js "a"; js "b"]] = [[js "a"; js "b"]] /\
  removeLastColumn [[js "a"]; [js "b"]] = [[js "a"]; [js "b"]] /\
  removeLastColumn [[js "a"; js "b"]; [js "c"; js "d"]]
  = [[js "a"]; [js "c"]].
Proof.
  split; [|split].
  - exact (proj1 (remove_last_keeps_header_and_column [[js "a"; js "b"]])
             eq_refl).
  - exact (proj1 (proj2 (remove_last_keeps_header_and_column
                           [[js "a"]; [js "b"]])) (le_n 1)).
  - exact (proj1 (proj2 (proj2 (remove_last_keeps_header_and_column
                                  [[js "a"; js "b"]; [js "c"; js "d"]]))
                    (le_n 2))).
Defined.

End WebviewClaims.

(** ** The span locator *)

Section LocatorClaims.
Import Locator.

Lemma findTableStart_bounds (lines : list str) (i : nat) :
  i < length lines ->
  exists s, findTableStart lines i = Some s /\ (0 <= s <= Z.of_nat i + 1)%Z.
Proof.
  induction i as [|i IH]; intros Hi.
  - cbn [findTableStart].
    destruct (nth_error lines 0) as [line|] eqn:E;
      [|apply nth_error_None in E; lia].
    destruct (isTableRow line); simpl; eexists; split; eauto; lia.
  - cbn [findTableStart].
    destruct (nth_error lines (S i)) as [line|] eqn:E;
      [|apply nth_error_None in E; lia].
    destruct (isTableRow line); simpl.
    + destruct IH as (s & Es & Hs); [lia|]. exists s. split; [exact Es|lia].
    + eexists; split; eauto. lia.
Qed.

Lemma findTableStart_at_row (lines : list str) (i : nat) (line : str) :
  nth_error lines i = Some line -> isTableRow line = true ->
  exists s, findTableStart lines i = Some s /\ (0 <= s <= Z.of_nat i)%Z.
Proof.
  intros E Hrow.
  assert (Hi : i < length lines)
    by (apply nth_error_Some; rewrite E; discriminate).
  destruct i as [|i]; cbn [findTableStart]; rewrite E, Hrow; simpl.
  - exists 0%Z. split; [reflexivity|lia].
  - destruct (findTableStart_bounds lines i) as (s & Es & Hs); [lia|].
    exists s. split; [exact Es|lia].
Qed.

Lemma scanEnd_bounds (rest : list str) : forall (i : nat) (last : Z),
  last = (Z.of_nat i + Z.of_nat (length rest) - 1)%Z ->
  (Z.of_nat i - 1 <= scanEnd rest i last <= last)%Z.
Proof.
  induction rest as [|line rest IH]; intros i last Hlast; simpl in *.
  - lia.
  - destruct (isTableRow line); simpl; [|lia].
    specialize (IH (S i) last). lia.
Qed.

Lemma scanEnd_at_row (line : str) (rest : list str) (i : nat) (last : Z) :
  isTableRow line = true ->
  last = (Z.of_nat i + Z.of_nat (length (line :: rest)) - 1)%Z ->
  (Z.of_nat i <= scanEnd (line :: rest) i last <= last)%Z.
Proof.
  intros Hrow Hlast. cbn [scanEnd]. rewrite Hrow. simpl negb. cbv iota.
  pose proof (scanEnd_bounds rest (S i) last) as H.
  simpl length in Hlast. lia.
Qed.

Lemma skipn_at (lines : list str) : forall (i : nat) (line : str),
  nth_error lines i = Some line ->
  exists rest, skipn i lines = line :: rest /\
               length lines = i + S (length rest).
Proof.
  induction lines as [|l lines IH]; intros [|i] line E; try discriminate.
  - injection E as ->. now exists lines.
  - destruct (IH i line E) as (rest & Es & Hlen).
    exists rest. simpl. split; [exact Es|lia].
Qed.

(** C10: at a table-like line inside the document, the backward scan
    returns a start and the forward scan an end with
    0 <= start <= index <= end <= last line index; neither is -1, so the
    caller's test accepts the span. *)
Theorem span_within_document (lines : list str) (index : nat) (line : str) :
  nth_error lines index = Some line -> isTableRow line = true ->
  exists tableStart,
    findTableStart lines index = Some tableStart /\
    let tableEnd := findTableEnd lines index in
    (0 <= tableStart <= Z.of_nat index)%Z /\
    (Z.of_nat index <= tableEnd <= Z.of_nat (length lines) - 1)%Z /\
    tableStart <> (-1)%Z /\ tableEnd <> (-1)%Z /\
    spanAccepted tableStart tableEnd = true.
Proof.
  intros E Hrow.
  destruct (findTableStart_at_row lines index line E Hrow) as (s & Es & Hs).
  exists s. split; [exact Es|]. cbv zeta.
  destruct (skipn_at lines index line E) as (rest & Eskip & Hlen).
  assert (He : (Z.of_nat index <= findTableEnd lines index
                <= Z.of_nat (length lines) - 1)%Z).
  { unfold findTableEnd. rewrite Eskip.
    apply scanEnd_at_row; [exact Hrow|]. simpl length. lia. }
  repeat split; try lia.
  unfold spanAccepted.
  replace (s =? -1)%Z with false by (symmetry; apply Z.eqb_neq; lia).
  replace (findTableEnd lines index =? -1)%Z with false
    by (symmetry; apply Z.eqb_neq; lia).
  reflexivity.
Qed.

Lemma span_within_document_witness :
  let lines := [js "text"; js "|a|b|"; js "|-|-|"; js "|1|2|"; js "text"] in
  exists tableStart,
    findTableStart lines 2 = Some tableStart /\
    let tableEnd := findTableEnd lines 2 in
    (0 <= tableStart <= Z.of_nat 2)%Z /\
    (Z.of_nat 2 <= tableEnd <= Z.of_nat (length lines) - 1)%Z /\
    tableStart <> (-1)%Z /\ tableEnd <> (-1)%Z /\
    spanAccepted tableStart tableEnd = true.
Proof.
  exact (span_within_document
           [js "text"; js "|a|b|"; js "|-|-|"; js "|1|2|"; js "text"]
           2 (js "|-|-|") eq_refl eq_refl).
Defined.

(** The span of the specification's example: lines 1 to 3. *)
Example span_example :
  let lines := [js "text"; js "|a|b|"; js "|-|-|"; js "|1|2|"; js "text"] in
  findTableStart lines 2 = Some 1%Z /\ findTableEnd lines 2 = 3%Z.
Proof. split; reflexivity. Qed.

End LocatorClaims.

(** * Further properties *)

(** ** The located span is the whole block of table-like lines *)

Section Runs.
Import Locator Spec.

Lemma runLength_le (l : list str) : runLength l <= length l.
Proof.
  induction l as [|x l IH]; simpl; [lia|]. destruct (isTableRow x); lia.
Qed.

Lemma runLength_prefix (l : list str) : forall k,
  k < runLength l -> tableAt l k = true.
Proof.
  induction l as [|x l IH]; simpl; intros k Hk; [lia|].
  destruct (isTableRow x) eqn:E; [|lia].
  destruct k as [|k]; [exact E|]. apply IH. lia.
Qed.

Lemma runLength_stop (l : list str) : tableAt l (runLength l) = false.
Proof.
  induction l as [|x l IH]; simpl; [reflexivity|].
  destruct (isTableRow x) eqn:E; [exact IH|exact E].
Qed.

Lemma runLength_unique (l : list str) : forall k,
  (forall j, j < k -> tableAt l j = true) -> tableAt l k = false ->
  runLength l = k.
Proof.
  induction l as [|x l IH]; intros k Hrun Hstop.
  - destruct k as [|k]; [reflexivity|]. now specialize (Hrun 0 (Nat.lt_0_succ k)).
  - simpl. destruct (isTableRow x) eqn:E.
    + destruct k as [|k]; [unfold tableAt in Hstop; simpl in Hstop; congruence|].
      f_equal. apply IH; [|exact Hstop].
      intros j Hj. apply (Hrun (S j)). lia.
    + destruct k as [|k]; [reflexivity|].
      specialize (Hrun 0 (Nat.lt_0_succ k)).
      unfold tableAt in Hrun. simpl in Hrun. congruence.
Qed.

Lemma tableAt_in_bounds (lines : list str) (j : nat) :
  tableAt lines j = true -> j < length lines.
Proof.
  unfold tableAt. intros H. apply nth_error_Some.
  destruct (nth_error lines j); [discriminate|discriminate].
Qed.

Lemma tableAt_skipn (lines : list str) (i k : nat) :
  tableAt (skipn i lines) k = tableAt lines (i + k).
Proof. unfold tableAt. now rewrite nth_error_skipn. Qed.

(** The lines up to [i], last first. *)
Lemma tableAt_backwards (lines : list str) (i k : nat) :
  i < length lines ->
  tableAt (rev (firstn (S i) lines)) k
  = if k <=? i then tableAt lines (i - k) else false.
Proof.
  intros Hi. unfold tableAt.
  rewrite nth_error_rev, length_firstn.
  replace (Nat.min (S i) (length lines)) with (S i) by lia.
  destruct (k <=? i) eqn:E.
  - apply Nat.leb_le in E.
    replace (k <? S i) with true by (symmetry; apply Nat.ltb_lt; lia).
    rewrite nth_error_firstn.
    replace (S i - S k <? S i) with true by (symmetry; apply Nat.ltb_lt; lia).
    reflexivity.
  - apply Nat.leb_gt in E.
    now replace (k <? S i) with false by (symmetry; apply Nat.ltb_ge; lia).
Qed.

Lemma firstn_succ (l : list str) : forall (i : nat) (x : str),
  nth_error l i = Some x -> firstn (S i) l = firstn i l ++ [x].
Proof.
  induction l as [|y l IH]; intros [|i] x E; try discriminate.
  - now injection E as ->.
  - simpl in E. cbn [firstn app]. f_equal. now apply IH.
Qed.

Lemma scanEnd_runLength (rest : list str) : forall (i : nat) (last : Z),
  last = (Z.of_nat i + Z.of_nat (length rest) - 1)%Z ->
  scanEnd rest i last = (Z.of_nat i + Z.of_nat (runLength rest) - 1)%Z.
Proof.
  induction rest as [|line rest IH]; intros i last Hlast; simpl in *; [lia|].
  destruct (isTableRow line); simpl; [|lia].
  rewrite IH by lia. lia.
Qed.

(** The forward scan ends where the run of table-like lines from
    [currentLine] ends. *)
Lemma findTableEnd_closed (lines : list str) (i : nat) :
  i <= length lines ->
  findTableEnd lines i
  = (Z.of_nat i + Z.of_nat (runLength (skipn i lines)) - 1)%Z.
Proof.
  intros Hi. unfold findTableEnd. apply scanEnd_runLength.
  rewrite length_skipn. lia.
Qed.

(** The backward scan starts where the run of table-like lines up to
    [currentLine] starts. *)
Lemma findTableStart_closed (lines : list str) (i : nat) :
  i < length lines ->
  findTableStart lines i
  = Some (Z.of_nat i + 1
          - Z.of_nat (runLength (rev (firstn (S i) lines))))%Z.
Proof.
  induction i as [|i IH]; intros Hi.
  - destruct (nth_error lines 0) as [line|] eqn:E;
      [|apply nth_error_None in E; lia].
    cbn [findTableStart]. rewrite E, (firstn_succ lines 0 line E).
    simpl. destruct (isTableRow line); reflexivity.
  - destruct (nth_error lines (S i)) as [line|] eqn:E;
      [|apply nth_error_None in E; lia].
    cbn [findTableStart]. rewrite E.
    rewrite (firstn_succ lines (S i) line E), rev_app_distr.
    cbn [rev app runLength]. destruct (isTableRow line); cbn [negb].
    + rewrite IH by lia. f_equal; lia.
    + f_equal; simpl; lia.
Qed.

Lemma findTableStart_first (lines : list str) (j s : nat) :
  tableAt lines j = true -> s <= j ->
  (forall k, s <= k <= j -> tableAt lines k = true) ->
  (s = 0 \/ tableAt lines (s - 1) = false) ->
  findTableStart lines j = Some (Z.of_nat s).
Proof.
  intros Hj Hs Hrun Hstop.
  pose proof (tableAt_in_bounds lines j Hj) as Hlen.
  rewrite findTableStart_closed by assumption.
  rewrite (runLength_unique _ (S j - s)); [f_equal; lia| |].
  - intros k Hk. rewrite tableAt_backwards by assumption.
    replace (k <=? j) with true by (symmetry; apply Nat.leb_le; lia).
    apply Hrun. lia.
  - rewrite tableAt_backwards by assumption.
    destruct (S j - s <=? j) eqn:E; [|reflexivity].
    apply Nat.leb_le in E. destruct Hstop as [->|Hstop]; [lia|].
    now replace (j - (S j - s)) with (s - 1) by lia.
Qed.

Lemma findTableEnd_last (lines : list str) (j e : nat) :
  j <= e -> (forall k, j <= k <= e -> tableAt lines k = true) ->
  tableAt lines (S e) = false ->
  findTableEnd lines j = Z.of_nat e.
Proof.
  intros Hje Hrun Hstop.
  assert (Hlen : j < length lines)
    by (apply tableAt_in_bounds, Hrun; lia).
  rewrite findTableEnd_closed by lia.
  rewrite (runLength_unique _ (S e - j)); [lia| |].
  - intros k Hk. rewrite tableAt_skipn. apply Hrun. lia.
  - rewrite tableAt_skipn. now replace (j + (S e - j)) with (S e) by lia.
Qed.

Lemma span_of_row (lines : list str) (index : nat) :
  tableAt lines index = true ->
  exists s e,
    findTableStart lines index = Some (Z.of_nat s) /\
    findTableEnd lines index = Z.of_nat e /\
    s <= index <= e /\ e < length lines /\
    (forall j, s <= j <= e -> tableAt lines j = true) /\
    (s = 0 \/ tableAt lines (s - 1) = false) /\
    tableAt lines (S e) = false.
Proof.
  intros Hrow. pose proof (tableAt_in_bounds lines index Hrow) as Hlen.
  set (back := runLength (rev (firstn (S index) lines))).
  set (forth := runLength (skipn index lines)).
  assert (Hback : 1 <= back <= S index).
  { split.
    - destruct back eqn:E; [|lia]. subst back.
      pose proof (runLength_stop (rev (firstn (S index) lines))) as H.
      rewrite E, tableAt_backwards in H by assumption. simpl in H.
      rewrite Nat.sub_0_r in H. congruence.
    - subst back. etransitivity; [apply runLength_le|].
      rewrite length_rev, length_firstn. lia. }
  assert (Hforth : 1 <= forth <= length lines - index).
  { split.
    - destruct forth eqn:E; [|lia]. subst forth.
      pose proof (runLength_stop (skipn index lines)) as H.
      rewrite E, tableAt_skipn, Nat.add_0_r in H. congruence.
    - subst forth. etransitivity; [apply runLength_le|].
      rewrite length_skipn. lia. }
  assert (Hbefore : forall j, S index - back <= j <= index ->
                              tableAt lines j = true).
  { intros j Hj.
    pose proof (runLength_prefix (rev (firstn (S index) lines)) (index - j))
      as H.
    rewrite tableAt_backwards in H by assumption.
    replace (index - j <=? index) with true in H
      by (symmetry; apply Nat.leb_le; lia).
    replace (index - (index - j)) with j in H by lia.
    apply H. fold back. lia. }
  assert (Hafter : forall j, index <= j <= index + forth - 1 ->
                             tableAt lines j = true).
  { intros j Hj.
    pose proof (runLength_prefix (skipn index lines) (j - index)) as H.
    rewrite tableAt_skipn in H.
    replace (index + (j - index)) with j in H by lia.
    apply H. fold forth. lia. }
  exists (S index - back), (index + forth - 1). repeat split; try lia.
  - rewrite findTableStart_closed by assumption. fold back. f_equal. lia.
  - rewrite findTableEnd_closed by lia. fold forth. lia.
  - intros j Hj. destruct (Nat.le_gt_cases j index);
      [apply Hbefore|apply Hafter]; lia.
  - destruct (Nat.eq_dec back (S index)) as [E|E]; [left; lia|right].
    pose proof (runLength_stop (rev (firstn (S index) lines))) as H.
    fold back in H. rewrite tableAt_backwards in H by assumption.
    replace (back <=? index) with true in H
      by (symmetry; apply Nat.leb_le; lia).
    now replace (S index - back - 1) with (index - back) by lia.
  - pose proof (runLength_stop (skipn index lines)) as H.
    fold forth in H. rewrite tableAt_skipn in H.
    now replace (S (index + forth - 1)) with (index + forth) by lia.
Qed.

End Runs.

Section LocatorMore.
Import Locator Spec.

(** X1: from a table-like line, the two scans return the first and the last
    line of the whole block of table-like lines around it: every line from
    start to end is table-like, the line before the start is not (or the
    start is line 0), and the line after the end is not (or the end is the
    last line). *)
Theorem located_span_is_maximal (lines : list str) (index : nat) :
  tableAt lines index = true ->
  exists tableStart tableEnd,
    findTableStart lines index = Some (Z.of_nat tableStart) /\
    findTableEnd lines index = Z.of_nat tableEnd /\
    tableStart <= index <= tableEnd /\ tableEnd < length lines /\
    (forall j, tableStart <= j <= tableEnd -> tableAt lines j = true) /\
    (tableStart = 0 \/ tableAt lines (tableStart - 1) = false) /\
    tableAt lines (S tableEnd) = false.
Proof. apply span_of_row. Qed.

Lemma located_span_is_maximal_witness :
  exists tableStart tableEnd,
    findTableStart exampleLines 2 = Some (Z.of_nat tableStart) /\
    findTableEnd exampleLines 2 = Z.of_nat tableEnd /\
    tableStart <= 2 <= tableEnd /\ tableEnd < length exampleLines /\
    (forall j, tableStart <= j <= tableEnd -> tableAt exampleLines j = true) /\
    (tableStart = 0 \/ tableAt exampleLines (tableStart - 1) = false) /\
    tableAt exampleLines (S tableEnd) = false.
Proof. exact (located_span_is_maximal exampleLines 2 eq_refl). Defined.

(** X2: every line of a located span locates the same span. *)
Theorem span_same_from_every_line
        (lines : list str) (index j tableStart tableEnd : nat) :
  tableAt lines index = true ->
  findTableStart lines index = Some (Z.of_nat tableStart) ->
  findTableEnd lines index = Z.of_nat tableEnd ->
  tableStart <= j <= tableEnd ->
  findTableStart lines j = Some (Z.of_nat tableStart) /\
  findTableEnd lines j = Z.of_nat tableEnd.
Proof.
  intros Hrow Es Ee Hj.
  destruct (span_of_row lines index Hrow)
    as (s & e & Es' & Ee' & Hi & He & Hrun & Hbefore & Hafter).
  assert (s = tableStart) by (rewrite Es in Es'; injection Es'; lia).
  assert (e = tableEnd) by lia. subst s e.
  split.
  - apply findTableStart_first.
    + apply Hrun. lia.
    + lia.
    + intros k Hk. apply Hrun. lia.
    + exact Hbefore.
  - apply findTableEnd_last.
    + lia.
    + intros k Hk. apply Hrun. lia.
    + exact Hafter.
Qed.

Lemma span_same_from_every_line_witness :
  findTableStart exampleLines 3 = Some (Z.of_nat 1) /\
  findTableEnd exampleLines 3 = Z.of_nat 3.
Proof.
  apply (span_same_from_every_line exampleLines 1 3 1 3);
    try reflexivity. lia.
Defined.

(** X3: the backward scan throws exactly when the index is past the last
    line and otherwise returns an index between 0 and index + 1; the forward
    scan returns -1 exactly when there is no line at all or it starts at a
    line 0 that is not table-like. *)
Theorem scan_edge_results (lines : list str) (index : nat) :
  (findTableStart lines index = None <-> length lines <= index) /\
  (forall tableStart, findTableStart lines index = Some tableStart ->
                      (0 <= tableStart <= Z.of_nat index + 1)%Z) /\
  (findTableEnd lines index = (-1)%Z <->
   lines = [] \/ (index = 0 /\ tableAt lines 0 = false)).
Proof.
  split; [|split].
  - split.
    + intros H. destruct (Nat.le_gt_cases (length lines) index) as [|Hlt];
        [assumption|].
      rewrite findTableStart_closed in H by assumption. discriminate.
    + intros H. apply nth_error_None in H.
      destruct index; cbn [findTableStart]; now rewrite H.
  - intros s Hs.
    destruct (Nat.le_gt_cases (length lines) index) as [Hge|Hlt].
    + apply nth_error_None in Hge.
      destruct index; cbn [findTableStart] in Hs; rewrite Hge in Hs;
        discriminate.
    + destruct (findTableStart_bounds lines index Hlt) as (s' & Es & Hb).
      rewrite Es in Hs. injection Hs as <-. exact Hb.
  - destruct (Nat.le_gt_cases index (length lines)) as [Hle|Hgt].
    + rewrite findTableEnd_closed by assumption.
      pose proof (runLength_stop (skipn index lines)) as Hstop.
      rewrite tableAt_skipn in Hstop.
      split.
      * intros H. right.
        assert (index = 0) by lia. subst index.
        assert (E : runLength (skipn 0 lines) = 0) by lia.
        rewrite E in Hstop. now split.
      * intros [->|[-> Hrow]];
          [assert (index = 0) by (simpl in Hle; lia); now subst index|].
        cbn [skipn]. destruct lines as [|line lines]; [reflexivity|].
        unfold tableAt in Hrow. simpl in Hrow. simpl. rewrite Hrow. lia.
    + unfold findTableEnd. rewrite skipn_all2 by lia. cbn [scanEnd].
      split.
      * intros H. left. destruct lines; [reflexivity|cbn [length] in H; lia].
      * intros [->|[-> _]]; [reflexivity|lia].
Qed.

(** The loop of [provideCodeLenses] from a position that does not lie
    inside a block it has passed. *)
Lemma tableSpans_from (lines : list str) : forall (fuel i : nat),
  length lines <= i + fuel ->
  (tableAt lines i = true -> i = 0 \/ tableAt lines (i - 1) = false) ->
  exists spans : list (nat * nat),
    tableSpans fuel lines i
    = Some (map (fun span => (Z.of_nat (fst span), Z.of_nat (snd span)))
                spans) /\
    (forall s e, In (s, e) spans ->
       i <= s /\ s <= e /\ e < length lines /\
       (forall j, s <= j <= e -> tableAt lines j = true) /\
       (s = 0 \/ tableAt lines (s - 1) = false) /\
       tableAt lines (S e) = false) /\
    (forall j, i <= j -> tableAt lines j = true ->
       exists s e, In (s, e) spans /\ s <= j <= e) /\
    StronglySorted (fun a b => snd a + 1 < fst b) spans.
Proof.
  induction fuel as [|fuel IH]; intros i Hfuel Hfirst.
  - exists []. cbn [tableSpans map].
    destruct (nth_error lines i) eqn:E.
    + assert (i < length lines) by (apply nth_error_Some; congruence). lia.
    + repeat split; try (intros; contradiction); [|constructor].
      intros j Hj Hrow. apply tableAt_in_bounds in Hrow.
      apply nth_error_None in E. lia.
  - cbn [tableSpans]. destruct (nth_error lines i) as [line|] eqn:E.
    2:{ exists []. repeat split; try (intros; contradiction); [|constructor].
        intros j Hj Hrow. apply tableAt_in_bounds in Hrow.
        apply nth_error_None in E. lia. }
    assert (Hat : tableAt lines i = isTableRow line)
      by (unfold tableAt; now rewrite E).
    destruct (isTableRow line) eqn:Hrow.
    + destruct (span_of_row lines i Hat)
        as (s & e & Es & Ee & Hi & He & Hrun & Hbefore & Hafter).
      assert (s = i).
      { destruct (Hfirst Hat) as [->|Hprev]; [lia|].
        destruct (Nat.eq_dec s i) as [|Hne]; [assumption|].
        rewrite Hrun in Hprev by lia. discriminate. }
      subst s. rewrite Es, Ee.
      replace (spanAccepted (Z.of_nat i) (Z.of_nat e)) with true
        by (unfold spanAccepted;
            destruct (Z.eqb_spec (Z.of_nat i) (-1));
            destruct (Z.eqb_spec (Z.of_nat e) (-1)); simpl; lia || reflexivity).
      rewrite Nat2Z.id.
      destruct (IH (S e)) as (spans & Espans & Hin & Hcover & Hsorted);
        [lia|intros H; rewrite Hafter in H; discriminate|].
      exists ((i, e) :: spans). rewrite Espans. cbn [option_map map fst snd].
      split; [reflexivity|]. split; [|split].
      * intros s' e' [[= <- <-]|Hin']; [repeat split; auto; lia|].
        destruct (Hin s' e' Hin') as (H1 & H2 & H3 & H4 & H5 & H6).
        repeat split; auto; lia.
      * intros j Hj Hjrow. destruct (Nat.le_gt_cases j e) as [Hle|Hgt].
        -- exists i, e. split; [now left|lia].
        -- destruct (Hcover j Hgt Hjrow) as (s' & e' & Hin' & Hse).
           exists s', e'. split; [now right|exact Hse].
      * constructor; [exact Hsorted|]. apply Forall_forall.
        intros [s' e'] Hin'. cbn [fst snd].
        destruct (Hin s' e' Hin') as (H1 & H2 & H3 & H4 & H5 & H6).
        destruct (Nat.eq_dec s' (S e)) as [->|Hne]; [|lia].
        rewrite H4 in Hafter by lia. discriminate.
    + destruct (IH (S i)) as (spans & Espans & Hin & Hcover & Hsorted);
        [lia| |].
      { intros _. right. now rewrite Nat.sub_succ, Nat.sub_0_r. }
      exists spans. split; [exact Espans|]. split; [|split].
      * intros s e Hin'. destruct (Hin s e Hin') as (H1 & H2).
        split; [lia|exact H2].
      * intros j Hj Hjrow. apply Hcover; [|exact Hjrow].
        destruct (Nat.eq_dec j i) as [->|]; [congruence|lia].
      * exact Hsorted.
Qed.

(** X4: [provideCodeLenses] reaches the end of the document and puts three
    lenses (Edit, Sort (A-Z), Sort (Z-A)) on the first line of each block of
    table-like lines, with that block as the span: each span is a whole
    block, every table-like line lies in one span, and the spans come in
    document order, apart from each other. *)
Theorem code_lenses_cover_the_tables (text : str) :
  let lines := split LF text in
  exists spans : list (nat * nat),
    provideCodeLenses text
    = Some (flat_map tableLenses
              (map (fun span => (Z.of_nat (fst span), Z.of_nat (snd span)))
                   spans)) /\
    (forall s e, In (s, e) spans ->
       s <= e /\ e < length lines /\
       (forall j, s <= j <= e -> tableAt lines j = true) /\
       (s = 0 \/ tableAt lines (s - 1) = false) /\
       tableAt lines (S e) = false) /\
    (forall j, tableAt lines j = true ->
       exists s e, In (s, e) spans /\ s <= j <= e) /\
    StronglySorted (fun a b => snd a + 1 < fst b) spans.
Proof.
  intros lines.
  destruct (tableSpans_from lines (length lines) 0)
    as (spans & E & Hin & Hcover & Hsorted); [lia|now left|].
  exists spans. unfold provideCodeLenses. fold lines. rewrite E.
  split; [reflexivity|]. split; [|split].
  - intros s e H. destruct (Hin s e H) as (_ & H'). exact H'.
  - intros j Hj. apply Hcover; [lia|exact Hj].
  - exact Hsorted.
Qed.

End LocatorMore.

(** ** From the span to the Grid *)

Section SpanText.
Import Locator Parser SortCommand Spec.

Lemma skipn_succ (l : list str) : forall (i : nat) (x : str),
  nth_error l i = Some x -> skipn i l = x :: skipn (S i) l.
Proof.
  induction l as [|y l IH]; intros [|i] x E; try discriminate.
  - now injection E as ->.
  - simpl in E. cbn [skipn]. now apply IH.
Qed.

Lemma lineTexts_in_bounds (document : list str) : forall count i,
  i + count <= length document ->
  lineTexts document i count = Some (firstn count (skipn i document)).
Proof.
  induction count as [|count IH]; intros i Hlen; [reflexivity|].
  cbn [lineTexts].
  destruct (nth_error document i) as [text|] eqn:E;
    [|apply nth_error_None in E; lia].
  rewrite IH by lia. rewrite (skipn_succ document i text E). reflexivity.
Qed.

Lemma lineTexts_out_of_bounds (document : list str) : forall count i,
  0 < count -> length document < i + count ->
  lineTexts document i count = None.
Proof.
  induction count as [|count IH]; intros i Hpos Hlen; [lia|].
  cbn [lineTexts]. destruct (nth_error document i) as [text|] eqn:E;
    [|reflexivity].
  assert (i < length document) by (apply nth_error_Some; congruence).
  rewrite IH by lia. reflexivity.
Qed.

Lemma extract_in_bounds (document : list str) (startLine endLine : nat) :
  startLine <= endLine -> endLine < length document ->
  extractTableText document startLine endLine
  = Some (join [LF] (spanLines document startLine endLine)).
Proof.
  intros Hse He. unfold extractTableText, spanLines.
  rewrite lineTexts_in_bounds by lia. reflexivity.
Qed.

(** X5: [extractTableText] joins the lines of the span with line feeds; it
    gives the empty text for a span that ends before it starts, and throws
    exactly when a non-empty span reaches past the last line. *)
Theorem extract_span_text (document : list str) (startLine endLine : nat) :
  (startLine <= endLine -> endLine < length document ->
   extractTableText document startLine endLine
   = Some (join [LF] (spanLines document startLine endLine))) /\
  (endLine < startLine ->
   extractTableText document startLine endLine = Some []) /\
  (startLine <= endLine -> length document <= endLine ->
   extractTableText document startLine endLine = None).
Proof.
  split; [apply extract_in_bounds|].
  unfold extractTableText, spanLines. split.
  - intros Hes. replace (S endLine - startLine) with 0 by lia. reflexivity.
  - intros Hse He. rewrite lineTexts_out_of_bounds by lia. reflexivity.
Qed.

Lemma extract_span_text_witness :
  extractTableText exampleLines 1 3
  = Some (js "|a|b|" ++ [LF] ++ js "|-|-|" ++ [LF] ++ js "|1|2|") /\
  extractTableText exampleLines 3 1 = Some [] /\
  extractTableText exampleLines 3 5 = None.
Proof.
  split; [|split].
  - apply (proj1 (extract_span_text exampleLines 1 3)); simpl; lia.
  - apply (proj1 (proj2 (extract_span_text exampleLines 3 1))); lia.
  - apply (proj2 (proj2 (extract_span_text exampleLines 3 5)));
      simpl; lia.
Defined.

Lemma join_cons_head (sep : str) (c : char) (h : str) (t : list str) :
  join sep ((c :: h) :: t) = c :: join sep (h :: t).
Proof. destruct t; reflexivity. Qed.

(** Joining the pieces of a split gives the string back. *)
Lemma join_split (sep : char) (s : str) : join [sep] (split sep s) = s.
Proof.
  induction s as [|c s IH]; [reflexivity|]. simpl.
  destruct (split sep s) as [|h t] eqn:E; [now apply split_not_nil in E|].
  destruct (c =? sep)%N eqn:Ec.
  - apply N.eqb_eq in Ec. subst c.
    change (join [sep] ([] :: h :: t)) with (sep :: join [sep] (h :: t)).
    now rewrite IH.
  - rewrite join_cons_head. now rewrite IH.
Qed.

Lemma split_with_sep (sep : char) (s : str) :
  includes sep s = true -> 2 <= length (split sep s).
Proof.
  induction s as [|c s IH]; simpl; [discriminate|].
  destruct (split sep s) as [|h t] eqn:E; [now apply split_not_nil in E|].
  rewrite N.eqb_sym. destruct (c =? sep)%N; simpl; [lia|].
  intros H. specialize (IH H). simpl in IH. lia.
Qed.

Lemma starts_with_own_head (c : char) (x rest : str) :
  x <> [] -> includes c x = false -> startsWith c (x ++ rest) = false.
Proof.
  destruct x as [|d x]; [congruence|]. simpl. intros _ H.
  apply orb_false_elim in H as [H _]. now rewrite N.eqb_sym.
Qed.

Lemma ends_with_own_last (c : char) (rest y : str) :
  y <> [] -> includes c y = false -> endsWith c (rest ++ y) = false.
Proof.
  intros Hy H. unfold endsWith. rewrite rev_app_distr.
  apply starts_with_own_head.
  - intros E. apply Hy. now rewrite <- (rev_involutive y), E.
  - now rewrite includes_rev.
Qed.

(** A table-like line always has a cell: the parser's test on the number of
    cells cannot drop it. *)
Lemma table_row_cells (l : str) :
  isTableRow l = true -> 1 <= length (lineCells (trim l)).
Proof.
  unfold isTableRow. intros H. apply andb_prop in H as [Hpipe Hlen].
  apply Nat.ltb_lt in Hlen.
  assert (Hne : trim l <> []) by (destruct (trim l); [simpl in Hlen; lia|discriminate]).
  rewrite (lineCells_strip l Hne). unfold stripOuterPipes.
  pose proof (split_with_sep PIPE (trim l) Hpipe) as Hsegs.
  pose proof (join_split PIPE (trim l)) as Hjoin.
  pose proof (split_excludes_sep PIPE (trim l)) as Hfree.
  destruct (split PIPE (trim l)) as [|x [|y [|z segs]]];
    try (simpl in Hsegs; lia).
  - (* one pipe *)
    change (join [PIPE] [x; y]) with (x ++ PIPE :: y) in Hjoin.
    inversion Hfree as [|? ? Hx Hfree']; subst.
    inversion Hfree' as [|? ? Hy _]; subst.
    rewrite <- Hjoin in Hlen |- *. rewrite length_app in Hlen.
    cbn [length] in Hlen. cbn [map].
    destruct x as [|c x].
    + assert (Hy' : y <> []) by (destruct y; [simpl in Hlen; lia|discriminate]).
      change ([] ++ PIPE :: y) with ([PIPE] ++ y).
      rewrite (ends_with_own_last PIPE [PIPE] y Hy' Hy). simpl. lia.
    + rewrite (starts_with_own_head PIPE (c :: x) (PIPE :: y))
        by (discriminate || assumption).
      destruct (endsWith PIPE ((c :: x) ++ PIPE :: y)); simpl; lia.
  - (* more pipes *)
    cbn [map]. destruct (startsWith PIPE (trim l)); cbn [tl];
      destruct (endsWith PIPE (trim l)); simpl; try lia;
      destruct (map trim segs); simpl; lia.
Qed.

Lemma rowOfLine_table_row (l : str) :
  isTableRow l = true -> rowOfLine l = [lineCells (trim l)].
Proof.
  intros H. apply table_row_cells in H. unfold rowOfLine.
  now replace (0 <? length (lineCells (trim l))) with true
    by (symmetry; apply Nat.ltb_lt; lia).
Qed.

Lemma table_row_not_blank (l : str) : isTableRow l = true -> trim l <> [].
Proof.
  unfold isTableRow. intros H. apply andb_prop in H as [_ H].
  apply Nat.ltb_lt in H. destruct (trim l); [simpl in H; lia|discriminate].
Qed.

Lemma withoutSeparator_incl (lines : list str) (l : str) :
  In l (withoutSeparator lines) -> In l lines.
Proof.
  destruct lines as [|l0 [|l1 rest]]; simpl; auto.
  destruct (isSeparatorRow (trim l1)); simpl; tauto.
Qed.

Lemma parse_table_rows (lines : list str) :
  lines <> [] ->
  Forall (fun l => includes LF l = false) lines ->
  Forall (fun l => isTableRow l = true) lines ->
  nonBlankLines (join [LF] lines) = lines /\
  parseMarkdownTable (join [LF] lines)
  = map (fun l => lineCells (trim l)) (withoutSeparator lines).
Proof.
  intros Hne Hlf Hrows.
  assert (E : nonBlankLines (join [LF] lines) = lines).
  { apply nonBlankLines_join; auto.
    eapply Forall_impl; [|exact Hrows]. apply table_row_not_blank. }
  split; [exact E|].
  unfold parseMarkdownTable. rewrite E, parseLines_closed_form.
  assert (Hsub : Forall (fun l => isTableRow l = true)
                        (withoutSeparator lines)).
  { rewrite Forall_forall in *. intros l Hin.
    now apply Hrows, withoutSeparator_incl. }
  induction Hsub as [|l ls Hl Hls IH]; [reflexivity|].
  cbn [flat_map map]. now rewrite rowOfLine_table_row, IH.
Qed.

(** X6: a table-like line always has at least one cell, so the parser's
    test on the number of cells never drops a line of a located span. *)
Theorem table_like_line_has_a_cell (l : str) :
  isTableRow l = true ->
  1 <= length (lineCells (trim l)) /\ rowOfLine l = [lineCells (trim l)].
Proof.
  intros H. split; [now apply table_row_cells|now apply rowOfLine_table_row].
Qed.

Lemma table_like_line_has_a_cell_witness :
  1 <= length (lineCells (trim (js " |xy"))) /\
  rowOfLine (js " |xy") = [lineCells (trim (js " |xy"))].
Proof. exact (table_like_line_has_a_cell (js " |xy") eq_refl). Defined.

Lemma spanLines_in (document : list str) (startLine endLine : nat) (l : str) :
  In l (spanLines document startLine endLine) ->
  exists j, startLine <= j <= endLine /\ nth_error document j = Some l.
Proof.
  unfold spanLines. intros Hin. apply In_nth_error in Hin as (k & Ek).
  rewrite nth_error_firstn in Ek.
  destruct (k <? S endLine - startLine) eqn:Hk; [|discriminate].
  apply Nat.ltb_lt in Hk. rewrite nth_error_skipn in Ek.
  exists (startLine + k). split; [lia|exact Ek].
Qed.

(** X7: on a document whose lines hold no line feed, the text extracted
    from a span of table-like lines parses to one row per line, in order,
    but for a separator line in second place: no other line is dropped and
    none is split. *)
Theorem span_parses_line_by_line
        (document : list str) (startLine endLine : nat) :
  Forall (fun l => includes LF l = false) document ->
  startLine <= endLine -> endLine < length document ->
  (forall j, startLine <= j <= endLine -> tableAt document j = true) ->
  exists tableText,
    extractTableText document startLine endLine = Some tableText /\
    nonBlankLines tableText = spanLines document startLine endLine /\
    parseMarkdownTable tableText
    = map (fun l => lineCells (trim l))
          (withoutSeparator (spanLines document startLine endLine)).
Proof.
  intros Hlf Hse He Hrows.
  exists (join [LF] (spanLines document startLine endLine)).
  split; [now apply extract_in_bounds|].
  apply parse_table_rows.
  - unfold spanLines. intros E. apply (f_equal (@length str)) in E.
    rewrite length_firstn, length_skipn in E. cbn [length] in E. lia.
  - rewrite Forall_forall in *. intros l Hin.
    apply spanLines_in in Hin as (j & _ & Ej).
    apply Hlf. eapply nth_error_In, Ej.
  - apply Forall_forall. intros l Hin.
    apply spanLines_in in Hin as (j & Hj & Ej).
    specialize (Hrows j Hj). unfold tableAt in Hrows.
    now rewrite Ej in Hrows.
Qed.

Lemma span_parses_line_by_line_witness :
  exists tableText,
    extractTableText exampleLines 1 3 = Some tableText /\
    nonBlankLines tableText = spanLines exampleLines 1 3 /\
    parseMarkdownTable tableText
    = map (fun l => lineCells (trim l))
          (withoutSeparator (spanLines exampleLines 1 3)).
Proof.
  apply (span_parses_line_by_line exampleLines 1 3).
  - repeat constructor.
  - lia.
  - simpl. lia.
  - intros j Hj. assert (H : j = 1 \/ j = 2 \/ j = 3) by lia.
    destruct H as [->|[->| ->]]; reflexivity.
Defined.

End SpanText.

(** ** The shape of the formatted text *)

Section FormattedText.
Import Locator Parser Formatter Spec.

Lemma length_join (sep : str) (parts : list str) :
  length (join sep parts)
  = list_sum (map (@length char) parts) + length sep * (length parts - 1).
Proof.
  induction parts as [|p parts IH]; [simpl; lia|].
  destruct parts as [|q parts]; [simpl; lia|].
  change (join sep (p :: q :: parts))
    with (p ++ sep ++ join sep (q :: parts)).
  rewrite !length_app, IH. cbn [map list_sum fold_right length].
  replace (S (length parts) - 1) with (length parts) by lia.
  replace (S (S (length parts)) - 1) with (S (length parts)) by lia.
  rewrite (Nat.mul_succ_r (length sep) (length parts)). lia.
Qed.

Lemma length_tableLine (cells : list str) :
  length (tableLine cells) = lineLength (map (@length char) cells).
Proof.
  unfold tableLine, lineLength. rewrite !length_app, length_join, length_map.
  change (length (js "| ")) with 2. change (length (js " |")) with 2.
  change (length (js " | ")) with 3. unfold str, char. lia.
Qed.

Lemma separatorCells_lengths (data : Grid) :
  map (@length char) (separatorCells (colWidths data)) = columnWidths data.
Proof.
  rewrite colWidths_columnWidths. unfold separatorCells.
  rewrite !map_map. rewrite <- (map_id (columnWidths data)) at 2.
  apply map_ext. intros w. unfold dashes. simpl. apply repeat_length.
Qed.

Lemma tableLines_lengths (data : Grid) :
  Forall (fun line => length line = lineLength (columnWidths data))
         (tableLines data).
Proof.
  unfold tableLines. pose proof (paddedRows_widths data) as H.
  destruct (paddedRows data) as [|header body]; [constructor|].
  inversion H as [|? ? Hh Hb]; subst.
  constructor; [now rewrite length_tableLine, Hh|].
  constructor; [now rewrite length_tableLine, separatorCells_lengths|].
  rewrite Forall_map. eapply Forall_impl; [|exact Hb].
  intros cells Hc. now rewrite length_tableLine, Hc.
Qed.

Lemma tableLines_count (data : Grid) :
  data <> [] -> length (tableLines data) = S (length data).
Proof.
  intros Hne. unfold tableLines.
  assert (E : length (paddedRows data) = length data)
    by (unfold paddedRows, normalizedData; now rewrite !length_map).
  destruct (paddedRows data) as [|header body];
    [destruct data; [congruence|discriminate]|].
  simpl in *. rewrite length_map. lia.
Qed.

(** X8: the lines of a formatted table all have the same length, 4 for the
    outer "| " and " |", the column widths, and 3 for each " | " between two
    columns; a Grid of n rows gives n + 1 lines. *)
Theorem formatted_lines_are_aligned (data : Grid) :
  generateMarkdownTable data = join [LF] (tableLines data) /\
  Forall (fun line => length line = lineLength (columnWidths data))
         (tableLines data) /\
  (data <> [] -> length (tableLines data) = S (length data)).
Proof.
  split; [apply generate_lines|].
  split; [apply tableLines_lengths|apply tableLines_count].
Qed.

Lemma lineLength_ge_4 (widths : list nat) : 4 <= lineLength widths.
Proof. unfold lineLength. lia. Qed.

Lemma tableLine_is_table_row (cells : list str) :
  isTableRow (tableLine cells) = true.
Proof.
  unfold isTableRow. rewrite trim_tableLine. apply andb_true_intro. split.
  - rewrite tableLine_shape. simpl. reflexivity.
  - apply Nat.ltb_lt. rewrite length_tableLine.
    pose proof (lineLength_ge_4 (map (@length char) cells)). lia.
Qed.

Lemma tableLines_are_table_rows (data : Grid) :
  Forall (fun line => isTableRow line = true) (tableLines data).
Proof.
  unfold tableLines. destruct (paddedRows data) as [|header body];
    [constructor|].
  constructor; [apply tableLine_is_table_row|].
  constructor; [apply tableLine_is_table_row|].
  rewrite Forall_map. apply Forall_forall. intros cells _.
  apply tableLine_is_table_row.
Qed.

Lemma tableLines_exclude_LF (data : Grid) :
  noCell LF data = true ->
  Forall (fun line => includes LF line = false) (tableLines data).
Proof.
  intros Hlf. pose proof (paddedRows_exclude LF data eq_refl Hlf) as H.
  unfold tableLines. destruct (paddedRows data) as [|header body];
    [constructor|].
  inversion H as [|? ? Hh Hb]; subst.
  constructor; [now apply tableLine_excludes|].
  constructor.
  - apply tableLine_excludes; try reflexivity.
    unfold separatorCells. rewrite Forall_map. apply Forall_forall.
    intros w _. unfold dashes. now apply includes_repeat.
  - rewrite Forall_map. eapply Forall_impl; [|exact Hb].
    intros cells Hc. now apply tableLine_excludes.
Qed.

Lemma tableAt_app (before lines after : list str) (k : nat) :
  k < length lines ->
  tableAt (before ++ lines ++ after) (length before + k) = tableAt lines k.
Proof.
  intros Hk. unfold tableAt.
  rewrite nth_error_app2 by lia.
  replace (length before + k - length before) with k by lia.
  now rewrite nth_error_app1.
Qed.

(** The lines of a formatted table between lines that are not table-like
    make one span. *)
Lemma tableLines_one_span
        (data : Grid) (before after : list str) (k : nat) :
  data <> [] -> k <= length data ->
  tableAt before (length before - 1) = false ->
  tableAt after 0 = false ->
  let document := before ++ tableLines data ++ after in
  findTableStart document (length before + k)
  = Some (Z.of_nat (length before)) /\
  findTableEnd document (length before + k)
  = Z.of_nat (length before + length data).
Proof.
  intros Hne Hk Hbefore Hafter document.
  pose proof (tableLines_count data Hne) as Hcount.
  assert (Hrows : forall j, length before <= j <= length before + length data
                            -> tableAt document j = true).
  { intros j Hj. unfold document.
    replace j with (length before + (j - length before)) by lia.
    rewrite tableAt_app by lia.
    pose proof (tableLines_are_table_rows data) as H.
    unfold tableAt.
    destruct (nth_error (tableLines data) (j - length before)) as [l|] eqn:E;
      [|apply nth_error_None in E; lia].
    rewrite Forall_forall in H. apply H. eapply nth_error_In, E. }
  split.
  - apply findTableStart_first.
    + apply Hrows. lia.
    + lia.
    + intros j Hj. apply Hrows. lia.
    + destruct before as [|b before']; [now left|right].
      unfold document, tableAt in *. rewrite nth_error_app1; [exact Hbefore|].
      simpl. lia.
  - apply findTableEnd_last.
    + lia.
    + intros j Hj. apply Hrows. lia.
    + unfold document, tableAt in *.
      rewrite app_assoc, nth_error_app2 by (rewrite length_app; lia).
      rewrite length_app, Hcount.
      now replace (S (length before + length data)
                   - (length before + S (length data))) with 0 by lia.
Qed.

(** X10: padding the short rows with empty cells before formatting changes
    nothing: the formatter does it itself, and only once. *)
Theorem padded_grid_formats_alike (data : Grid) :
  generateMarkdownTable (normalizedData data) = generateMarkdownTable data /\
  normalizedData (normalizedData data) = normalizedData data /\
  sameLength (normalizedData data) = true.
Proof.
  split; [apply generate_normalizedData|].
  split; [apply normalizedData_idem|].
  pose proof (normalizedData_lengths data) as H.
  destruct (normalizedData data) as [|row0 rows]; [reflexivity|].
  inversion H as [|? ? H0 Hrest]; subst. simpl.
  apply forallb_forall. rewrite Forall_forall in Hrest.
  intros row Hin. apply Nat.eqb_eq. rewrite H0. now apply Hrest.
Qed.

(** X11: for every Grid, ragged or not, with a column and without pipe or
    line feed in its cells, re-parsing the formatted text gives the Grid
    padded to equal row lengths, with every cell trimmed; the result has as
    many rows as the Grid. *)
Theorem reparse_pads_and_trims (data : Grid) :
  noCell PIPE data = true -> noCell LF data = true -> 0 < maxCols data ->
  parseMarkdownTable (generateMarkdownTable data)
  = map (map trim) (normalizedData data) /\
  length (parseMarkdownTable (generateMarkdownTable data)) = length data /\
  Forall (fun row => length row = maxCols data)
         (parseMarkdownTable (generateMarkdownTable data)).
Proof.
  intros Hpipe Hlf Hcols.
  assert (E : parseMarkdownTable (generateMarkdownTable data)
              = map (map trim) (normalizedData data)).
  { rewrite parse_generate by assumption. apply reparsedRow_trim.
    eapply Forall_impl; [|apply normalizedData_lengths].
    intros row Hlen Hnil. subst row. simpl in Hlen. lia. }
  rewrite E. split; [reflexivity|]. split.
  - unfold normalizedData. now rewrite !length_map.
  - rewrite Forall_map. eapply Forall_impl; [|apply normalizedData_lengths].
    intros row Hlen. now rewrite length_map.
Qed.

Lemma reparse_pads_and_trims_witness :
  let data := [[js "Name"; js " Age"]; [js "Ann"]] in
  parseMarkdownTable (generateMarkdownTable data)
  = map (map trim) (normalizedData data) /\
  length (parseMarkdownTable (generateMarkdownTable data)) = length data /\
  Forall (fun row => length row = maxCols data)
         (parseMarkdownTable (generateMarkdownTable data)).
Proof.
  apply (reparse_pads_and_trims [[js "Name"; js " Age"]; [js "Ann"]]);
    try reflexivity.
  vm_compute. lia.
Defined.

(** X12: the formatted text of a parsed table is a fixed point: parsing it
    and formatting again gives the same text, whatever the first text was. *)
Theorem format_of_parsed_text_is_stable (tableText : str) :
  let text := generateMarkdownTable (parseMarkdownTable tableText) in
  generateMarkdownTable (parseMarkdownTable text) = text.
Proof.
  cbv zeta. destruct (parsed_grid_clean tableText) as (Ht & Hp & Hl).
  now apply reformat_clean.
Qed.

(** X13: whatever the text, every cell of the parsed Grid is trimmed and
    holds neither a pipe nor a line feed. *)
Theorem parsed_cells_are_clean (tableText : str) :
  Forall (Forall (fun cell => trim cell = cell /\
                              includes PIPE cell = false /\
                              includes LF cell = false))
         (parseMarkdownTable tableText).
Proof.
  apply parseLines_clean. unfold nonBlankLines.
  pose proof (split_excludes_sep LF tableText) as Hs.
  rewrite Forall_forall in *. intros l Hin.
  apply filter_In in Hin as [Hin _]. now apply Hs.
Qed.

End FormattedText.

(** ** Blank lines *)

Section BlankLines.
Import Parser Formatter InsertCommand Spec.

Lemma split_app (sep : char) (a b : str) :
  split sep (a ++ sep :: b) = split sep a ++ split sep b.
Proof.
  induction a as [|c a IH].
  - simpl. now rewrite N.eqb_refl.
  - change ((c :: a) ++ sep :: b) with (c :: (a ++ sep :: b)).
    destruct (c =? sep)%N eqn:E.
    + simpl. rewrite E. now rewrite IH.
    + rewrite 2 split_cons_other by assumption. rewrite IH.
      destruct (split sep a) eqn:Ea; [now apply split_not_nil in Ea|].
      reflexivity.
Qed.

Lemma nonBlankLines_app (a b : str) :
  nonBlankLines (a ++ LF :: b) = nonBlankLines a ++ nonBlankLines b.
Proof. unfold nonBlankLines. now rewrite split_app, filter_app. Qed.

Lemma nonBlankLines_trailing (t : str) :
  nonBlankLines (t ++ [LF; LF]) = nonBlankLines t.
Proof.
  change (t ++ [LF; LF]) with (t ++ LF :: [LF]).
  rewrite nonBlankLines_app. change (nonBlankLines [LF]) with (@nil str).
  apply app_nil_r.
Qed.

Lemma nonBlankLines_leading (t : str) :
  nonBlankLines ([LF; LF] ++ t) = nonBlankLines t.
Proof.
  change ([LF; LF] ++ t) with ([] ++ LF :: ([] ++ LF :: t)).
  now rewrite 2 nonBlankLines_app.
Qed.

(** X14: the parser reads only the non-blank lines: the lines of two blocks
    joined by a line feed are the lines of the first and then of the second,
    so a blank line between them changes nothing, and the text that
    [insertNewTable] puts into the document parses to the same Grid as the
    table text alone. *)
Theorem blank_lines_are_ignored
        (a b currentLineText : str) (tableData : Grid) :
  nonBlankLines (a ++ [LF] ++ b) = nonBlankLines a ++ nonBlankLines b /\
  parseMarkdownTable (a ++ [LF; LF] ++ b) = parseMarkdownTable (a ++ [LF] ++ b) /\
  parseMarkdownTable (insertText currentLineText tableData)
  = parseMarkdownTable (generateMarkdownTable tableData).
Proof.
  split; [apply nonBlankLines_app|]. split.
  - unfold parseMarkdownTable. cbn [app].
    now rewrite !nonBlankLines_app.
  - unfold parseMarkdownTable, insertText.
    destruct (isEmpty (trim currentLineText)).
    + now rewrite nonBlankLines_trailing.
    + now rewrite nonBlankLines_leading, nonBlankLines_trailing.
Qed.

End BlankLines.

(** ** A formatted table in a document *)

Section TableInDocument.
Import Locator Parser Formatter Spec.

Lemma split_join_blocks (sep : char) (blocks : list str) :
  blocks <> [] ->
  split sep (join [sep] blocks) = flat_map (split sep) blocks.
Proof.
  induction blocks as [|block blocks IH]; [congruence|]. intros _.
  destruct blocks as [|block2 blocks].
  - simpl. now rewrite app_nil_r.
  - change (join [sep] (block :: block2 :: blocks))
      with (block ++ sep :: join [sep] (block2 :: blocks)).
    rewrite split_app, IH by discriminate. reflexivity.
Qed.

Lemma split_lines (lines : list str) :
  Forall (fun l => includes LF l = false) lines ->
  flat_map (split LF) lines = lines.
Proof.
  induction 1 as [|l lines Hl Hlines IH]; [reflexivity|].
  simpl. now rewrite (split_no_sep LF l Hl), IH.
Qed.

Lemma document_lines (data : Grid) (before after : list str) :
  data <> [] -> noCell LF data = true ->
  Forall (fun l => includes LF l = false) before ->
  Forall (fun l => includes LF l = false) after ->
  split LF (join [LF] (before ++ generateMarkdownTable data :: after))
  = before ++ tableLines data ++ after.
Proof.
  intros Hne Hlf Hb Ha.
  rewrite split_join_blocks by (destruct before; discriminate).
  rewrite flat_map_app. cbn [flat_map].
  rewrite (split_lines before Hb), (split_lines after Ha).
  rewrite generate_lines, split_join; [reflexivity| |].
  - intros E. apply (f_equal (@length str)) in E.
    rewrite tableLines_count in E by assumption. discriminate.
  - now apply tableLines_exclude_LF.
Qed.

(** X9: take a Grid with a row whose cells hold no line feed, and a
    document text made of some lines, the formatted table and some more
    lines, the line before the table and the line after it not table-like
    (or absent).  Split into lines as the lens provider splits it, the table
    fills one line per row and one for the separator, and from each of these
    lines the locator finds the span of exactly these lines. *)
Theorem formatted_table_is_one_span
        (data : Grid) (before after : list str) (k : nat) :
  data <> [] -> noCell LF data = true ->
  Forall (fun l => includes LF l = false) before ->
  Forall (fun l => includes LF l = false) after ->
  k <= length data ->
  tableAt before (length before - 1) = false ->
  tableAt after 0 = false ->
  let text := join [LF] (before ++ generateMarkdownTable data :: after) in
  let document := split LF text in
  length document = length before + S (length data) + length after /\
  document = before ++ split LF (generateMarkdownTable data) ++ after /\
  findTableStart document (length before + k)
  = Some (Z.of_nat (length before)) /\
  findTableEnd document (length before + k)
  = Z.of_nat (length before + length data).
Proof.
  intros Hne Hlf Hb Ha Hk Hbefore Hafter text document.
  assert (E : document = before ++ tableLines data ++ after)
    by now apply document_lines.
  assert (Et : split LF (generateMarkdownTable data) = tableLines data).
  { rewrite generate_lines. apply split_join.
    - intros E'. apply (f_equal (@length str)) in E'.
      rewrite tableLines_count in E' by assumption. discriminate.
    - now apply tableLines_exclude_LF. }
  rewrite Et, E. split; [|split; [reflexivity|]].
  - rewrite !length_app, tableLines_count by assumption. lia.
  - now apply tableLines_one_span.
Qed.

Lemma formatted_table_is_one_span_witness :
  let data := [[js "a"; js "b"]; [js "1"; js "2"]] in
  let before := [js "text"] in
  let after := [js "text"] in
  let text := join [LF] (before ++ generateMarkdownTable data :: after) in
  let document := split LF text in
  length document = length before + S (length data) + length after /\
  document = before ++ split LF (generateMarkdownTable data) ++ after /\
  findTableStart document (length before + 2)
  = Some (Z.of_nat (length before)) /\
  findTableEnd document (length before + 2)
  = Z.of_nat (length before + length data).
Proof.
  apply (formatted_table_is_one_span
           [[js "a"; js "b"]; [js "1"; js "2"]] [js "text"] [js "text"] 2).
  - discriminate.
  - reflexivity.
  - repeat constructor.
  - repeat constructor.
  - simpl. lia.
  - reflexivity.
  - reflexivity.
Defined.

End TableInDocument.

(** ** Sorting again, and the text of a sorted table *)

Section SortedText.
Import Parser Formatter SortCommand Spec.

Lemma sort_of_sorted (A : Type) (compare : A -> A -> Z) (l : list A) :
  StronglySorted (notAfter compare) l -> sort compare l = l.
Proof.
  induction 1 as [|a l Hl IH Ha]; [reflexivity|].
  cbn [sort fold_right]. fold (sort compare l). rewrite IH.
  destruct l as [|b l]; [reflexivity|].
  inversion Ha as [|? ? Hab _]; subst. unfold notAfter in Hab.
  cbn [insert]. now replace (compare a b <=? 0)%Z with true
    by (symmetry; apply Z.leb_le; exact Hab).
Qed.

Lemma list_max_perm (l l' : list nat) :
  Permutation l l' -> list_max l = list_max l'.
Proof.
  induction 1 as [|x l l' _ IH|x y l|l1 l2 l3 _ IH1 _ IH2];
    unfold list_max in *; simpl; try lia.
Qed.

Lemma maxCols_perm (data data' : Grid) :
  Permutation data data' -> maxCols data = maxCols data'.
Proof. intros H. apply list_max_perm. now apply Permutation_map. Qed.

Lemma columnWidths_perm (data data' : Grid) :
  Permutation data data' -> columnWidths data = columnWidths data'.
Proof.
  intros H. unfold columnWidths. rewrite (maxCols_perm data data' H).
  apply map_ext. intros i. unfold columnWidth.
  apply list_max_perm. now apply Permutation_map.
Qed.

Lemma tableLines_of_rows (headerRow : list str) (rows : Grid) :
  let data := headerRow :: rows in
  let line row :=
    tableLine (paddedCells (colWidths data) (normalizeRow (maxCols data) row))
  in
  tableLines data
  = line headerRow :: tableLine (separatorCells (colWidths data))
      :: map line rows.
Proof.
  cbv zeta. unfold tableLines, paddedRows, normalizedData. cbn [map].
  now rewrite !map_map.
Qed.

Lemma tableLines_body_perm (headerRow : list str) (rows rows' : Grid) :
  Permutation rows rows' ->
  exists header separator body body',
    tableLines (headerRow :: rows) = header :: separator :: body /\
    tableLines (headerRow :: rows') = header :: separator :: body' /\
    Permutation body body'.
Proof.
  intros H.
  assert (Hp : Permutation (headerRow :: rows) (headerRow :: rows'))
    by now constructor.
  rewrite 2 tableLines_of_rows.
  rewrite !colWidths_columnWidths.
  rewrite <- (columnWidths_perm _ _ Hp), <- (maxCols_perm _ _ Hp).
  do 4 eexists. split; [reflexivity|]. split; [reflexivity|].
  now apply Permutation_map.
Qed.

Section WithRuntime.
Variable toLowerCase : str -> str.
Variable localeCompare : str -> str -> Z.

(** X16: with two rows or more, [sortTable] makes exactly one edit, over
    the lines of the span, and its text is the formatted table with the same
    header line and the same separator line as the table had when formatted
    unsorted, followed by the same body lines in another order, and a final
    line feed: sorting changes no width and no cell. *)
Theorem sort_rewrites_the_span_with_the_same_lines
        (document : list str) (startLine endLine : nat) (ascending : bool)
        (tableText : str) :
  extractTableText document startLine endLine = Some tableText ->
  1 < length (parseMarkdownTable tableText) ->
  exists header separator body body',
    tableLines (parseMarkdownTable tableText) = header :: separator :: body /\
    Permutation body body' /\
    sortTable toLowerCase localeCompare document startLine endLine ascending
    = Some [ApplyEdit startLine 0 (endLine + 1) 0
              (join [LF] (header :: separator :: body') ++ [LF])].
Proof.
  intros Htext Hlen. unfold sortTable. rewrite Htext.
  destruct (parseMarkdownTable tableText) as [|headerRow [|row rows]];
    [simpl in Hlen; lia|simpl in Hlen; lia|].
  cbn [sortedTableData].
  set (sorted := sort (compareRows toLowerCase localeCompare ascending)
                      (row :: rows)).
  destruct (tableLines_body_perm headerRow (row :: rows) sorted)
    as (header & separator & body & body' & E & E' & Hperm);
    [apply sort_perm|].
  exists header, separator, body, body'.
  split; [exact E|]. split; [exact Hperm|].
  unfold saveTable. now rewrite generate_lines, E'.
Qed.

Hypothesis localeCompare_sign :
  forall a b, Z.sgn (localeCompare b a) = (- Z.sgn (localeCompare a b))%Z.
Hypothesis localeCompare_order :
  forall a b c,
    (localeCompare a b <= 0 -> localeCompare b c <= 0 ->
     localeCompare a c <= 0)%Z.

(** X15: sorting a sorted Grid the same way gives it back: the rows of a
    document sorted once do not move when the command is run again. *)
Theorem sort_twice_is_sort_once
        (ascending : bool) (tableData sortedData : Grid) :
  sortedTableData toLowerCase localeCompare ascending tableData
  = Some sortedData ->
  sortedTableData toLowerCase localeCompare ascending sortedData
  = Some sortedData.
Proof.
  intros H.
  destruct tableData as [|headerRow [|row rows]]; try discriminate.
  unfold sortedTableData in H.
  set (compare := compareRows toLowerCase localeCompare ascending) in *.
  pose proof (sort_sorted _ compare
                (compareRows_flip toLowerCase localeCompare
                                  localeCompare_sign ascending)
                (compareRows_trans toLowerCase localeCompare
                                   localeCompare_order ascending)
                (row :: rows)) as Hsorted.
  pose proof (sort_perm _ compare (row :: rows)) as Hperm.
  remember (sort compare (row :: rows)) as sorted eqn:E.
  injection H as <-. clear E.
  destruct sorted as [|row' rows'].
  - apply Permutation_length in Hperm. discriminate.
  - unfold sortedTableData. fold compare. do 2 f_equal.
    now apply sort_of_sorted.
Qed.

End WithRuntime.

Lemma sort_rewrites_the_span_with_the_same_lines_witness :
  let document :=
    [js "| Name |"; js "| - |"; js "| b |"; js "| a |"] in
  exists header separator body body',
    tableLines (parseMarkdownTable
                  (js "| Name |" ++ [LF] ++ js "| - |" ++ [LF]
                   ++ js "| b |" ++ [LF] ++ js "| a |"))
    = header :: separator :: body /\
    Permutation body body' /\
    sortTable AsciiRuntime.toLowerCase AsciiRuntime.localeCompare
              document 0 3 true
    = Some [ApplyEdit 0 0 (3 + 1) 0
              (join [LF] (header :: separator :: body') ++ [LF])].
Proof.
  apply (sort_rewrites_the_span_with_the_same_lines
           AsciiRuntime.toLowerCase AsciiRuntime.localeCompare
           [js "| Name |"; js "| - |"; js "| b |"; js "| a |"] 0 3 true).
  - reflexivity.
  - vm_compute. lia.
Defined.

Lemma sort_twice_is_sort_once_witness :
  sortedTableData AsciiRuntime.toLowerCase AsciiRuntime.localeCompare true
    [[js "Name"]; [js "a"]; [js "b"]]
  = Some [[js "Name"]; [js "a"]; [js "b"]].
Proof.
  apply (sort_twice_is_sort_once
           AsciiRuntime.toLowerCase AsciiRuntime.localeCompare
           (fun a b => localeCompare_flip a b)
           (fun a b c => localeCompare_trans a b c)
           true [[js "Name"]; [js "b"]; [js "a"]]).
  reflexivity.
Defined.

End SortedText.

(** ** Moving, adding and deleting rows and columns *)

Section Splice.
Import Webview.
Variable A : Type.

Lemma firstn_spliced (i : nat) (l : list A) :
  i < length l -> firstn i (firstn i l ++ skipn (S i) l) = firstn i l.
Proof.
  intros Hi. rewrite firstn_app, length_firstn.
  replace (i - Nat.min i (length l)) with 0 by lia.
  rewrite firstn_0, app_nil_r. apply firstn_all2.
  rewrite length_firstn. lia.
Qed.

Lemma skipn_spliced (i : nat) (l : list A) :
  i < length l -> skipn i (firstn i l ++ skipn (S i) l) = skipn (S i) l.
Proof.
  intros Hi. rewrite skipn_app, length_firstn.
  replace (i - Nat.min i (length l)) with 0 by lia.
  rewrite skipn_all2 by (rewrite length_firstn; lia). reflexivity.
Qed.

Lemma nth_split (i : nat) (l : list A) (x : A) :
  nth_error l i = Some x -> l = firstn i l ++ x :: skipn (S i) l.
Proof.
  revert i. induction l as [|y l IH]; intros [|i] E; try discriminate.
  - now injection E as ->.
  - simpl in E. cbn [firstn skipn app]. f_equal. now apply IH.
Qed.

Lemma spliceOut_in (i : nat) (l : list A) (x : A) :
  nth_error l i = Some x -> spliceIn i x (snd (spliceOut i l)) = l.
Proof.
  intros E. assert (Hi : i < length l) by (apply nth_error_Some; congruence).
  unfold spliceIn, spliceOut. cbn [snd].
  rewrite firstn_spliced, skipn_spliced by assumption.
  symmetry. now apply nth_split.
Qed.

Lemma spliceIn_out (i : nat) (l : list A) (x : A) :
  i <= length l -> spliceOut i (spliceIn i x l) = (Some x, l).
Proof.
  intros Hi. unfold spliceIn, spliceOut.
  assert (Hlen : length (firstn i l) = i) by (rewrite length_firstn; lia).
  f_equal.
  - rewrite nth_error_app2 by lia. now rewrite Hlen, Nat.sub_diag.
  - rewrite firstn_app, Hlen, Nat.sub_diag, firstn_0, app_nil_r.
    rewrite (firstn_all2 (n := i)) by lia.
    rewrite skipn_app, Hlen.
    rewrite (skipn_all2 (n := S i)) by lia.
    replace (S i - i) with 1 by lia. cbn [skipn app].
    apply firstn_skipn.
Qed.

Lemma spliceIn_perm (i : nat) (l : list A) (x : A) :
  Permutation (x :: l) (spliceIn i x l).
Proof.
  unfold spliceIn. rewrite <- (firstn_skipn i l) at 1.
  apply Permutation_middle.
Qed.

Lemma spliceOut_perm (i : nat) (l : list A) (x : A) :
  nth_error l i = Some x -> Permutation l (x :: snd (spliceOut i l)).
Proof.
  intros E. rewrite (nth_split i l x E) at 1. unfold spliceOut. cbn [snd].
  symmetry. apply Permutation_middle.
Qed.

Lemma spliceOut_length (i : nat) (l : list A) :
  length (snd (spliceOut i l))
  = if i <? length l then length l - 1 else length l.
Proof.
  unfold spliceOut. cbn [snd].
  rewrite length_app, length_firstn, length_skipn.
  destruct (i <? length l) eqn:E;
    [apply Nat.ltb_lt in E|apply Nat.ltb_ge in E]; lia.
Qed.

Lemma spliceIn_nth (i : nat) (l : list A) (x : A) :
  nth_error (spliceIn i x l) (Nat.min i (length l)) = Some x.
Proof.
  unfold spliceIn.
  rewrite nth_error_app2 by (rewrite length_firstn; lia).
  now rewrite length_firstn, Nat.sub_diag.
Qed.

Lemma spliceIn_length (i : nat) (l : list A) (x : A) :
  length (spliceIn i x l) = S (length l).
Proof.
  unfold spliceIn. rewrite length_app. cbn [length].
  rewrite length_firstn, length_skipn. lia.
Qed.

End Splice.

Section WebviewMore.
Import Webview Spec.

Lemma renderTable_rows (tableData : Grid) :
  tableData <> [] -> renderTable tableData = tableData.
Proof. destruct tableData; [congruence|reflexivity]. Qed.

Lemma moveRow_some (fromIndex toIndex : nat) (tableData : Grid)
      (movedRow : list str) :
  nth_error tableData fromIndex = Some movedRow ->
  moveRow fromIndex toIndex tableData
  = Some (spliceIn toIndex movedRow (snd (spliceOut fromIndex tableData))).
Proof.
  intros E. unfold moveRow, spliceOut at 1. rewrite E. f_equal.
  apply renderTable_rows. unfold spliceIn.
  destruct (firstn toIndex _); discriminate.
Qed.

(** X17: [moveRow] with a source position inside the Grid rearranges the
    rows: the moved row comes to stand at the destination position (at the
    end when the destination is past it), the other rows keep their order,
    and no row is lost or added.  With a source position past the end it
    does not give a Grid. *)
Theorem move_row_rearranges (fromIndex toIndex : nat) (tableData : Grid) :
  (fromIndex < length tableData ->
   exists moved,
     moveRow fromIndex toIndex tableData = Some moved /\
     Permutation tableData moved /\
     length moved = length tableData /\
     nth_error moved (Nat.min toIndex (length tableData - 1))
     = nth_error tableData fromIndex /\
     snd (spliceOut (Nat.min toIndex (length tableData - 1)) moved)
     = snd (spliceOut fromIndex tableData)) /\
  (length tableData <= fromIndex ->
   moveRow fromIndex toIndex tableData = None).
Proof.
  split.
  - intros Hfrom.
    destruct (nth_error tableData fromIndex) as [row|] eqn:E;
      [|apply nth_error_None in E; lia].
    set (rest := snd (spliceOut fromIndex tableData)).
    assert (Hrest : length rest = length tableData - 1).
    { unfold rest. rewrite spliceOut_length.
      now replace (fromIndex <? length tableData) with true
        by (symmetry; apply Nat.ltb_lt; lia). }
    exists (spliceIn toIndex row rest).
    split; [now apply moveRow_some|]. split; [|split; [|split]].
    + rewrite (spliceOut_perm _ fromIndex tableData row E).
      apply spliceIn_perm.
    + rewrite spliceIn_length, Hrest. lia.
    + rewrite <- Hrest. apply spliceIn_nth.
    + rewrite <- Hrest.
      assert (Emin : spliceIn toIndex row rest
                     = spliceIn (Nat.min toIndex (length rest)) row rest).
      { unfold spliceIn.
        destruct (Nat.le_gt_cases toIndex (length rest)) as [H|H].
        - now rewrite Nat.min_l.
        - rewrite Nat.min_r by lia.
          now rewrite !firstn_all2, !skipn_all2 by lia. }
      rewrite Emin, spliceIn_out by lia. reflexivity.
  - intros Hfrom. apply nth_error_None in Hfrom.
    unfold moveRow, spliceOut. now rewrite Hfrom.
Qed.

Lemma move_row_rearranges_witness :
  let tableData := [[js "r0"]; [js "r1"]; [js "r2"]; [js "r3"]] in
  exists moved,
    moveRow 2 0 tableData = Some moved /\
    Permutation tableData moved /\
    length moved = length tableData /\
    nth_error moved (Nat.min 0 (length tableData - 1))
    = nth_error tableData 2 /\
    snd (spliceOut (Nat.min 0 (length tableData - 1)) moved)
    = snd (spliceOut 2 tableData).
Proof.
  apply (proj1 (move_row_rearranges
                  2 0 [[js "r0"]; [js "r1"]; [js "r2"]; [js "r3"]])).
  simpl. lia.
Defined.

(** The example of the specification: row 2 of four moved to position 0. *)
Example move_row_2_to_0 :
  moveRow 2 0 [[js "r0"]; [js "r1"]; [js "r2"]; [js "r3"]]
  = Some [[js "r2"]; [js "r0"]; [js "r1"]; [js "r3"]].
Proof. reflexivity. Qed.

Lemma moveRow_back (fromIndex toIndex : nat) (tableData moved : Grid) :
  fromIndex < length tableData -> toIndex < length tableData ->
  moveRow fromIndex toIndex tableData = Some moved ->
  moveRow toIndex fromIndex moved = Some tableData.
Proof.
  intros Hfrom Hto Hmove.
  destruct (nth_error tableData fromIndex) as [row|] eqn:E;
    [|apply nth_error_None in E; lia].
  rewrite (moveRow_some fromIndex toIndex tableData row E) in Hmove.
  set (rest := snd (spliceOut fromIndex tableData)) in *.
  assert (Em : moved = spliceIn toIndex row rest) by congruence.
  subst moved. clear Hmove.
  assert (Hrest : length rest = length tableData - 1).
  { unfold rest. rewrite spliceOut_length.
    now replace (fromIndex <? length tableData) with true
      by (symmetry; apply Nat.ltb_lt; lia). }
  assert (Hout : spliceOut toIndex (spliceIn toIndex row rest)
                 = (Some row, rest)) by (apply spliceIn_out; lia).
  rewrite (moveRow_some toIndex fromIndex _ row)
    by (now apply (f_equal fst) in Hout).
  rewrite Hout. cbn [snd]. f_equal. now apply spliceOut_in.
Qed.

(** X18: moving a row and moving it back gives the Grid one started from,
    for positions inside the Grid. *)
Theorem move_row_and_back
        (fromIndex toIndex : nat) (tableData moved : Grid) :
  fromIndex < length tableData -> toIndex < length tableData ->
  moveRow fromIndex toIndex tableData = Some moved ->
  moveRow toIndex fromIndex moved = Some tableData.
Proof. apply moveRow_back. Qed.

Lemma move_row_and_back_witness :
  moveRow 0 2 [[js "r2"]; [js "r0"]; [js "r1"]; [js "r3"]]
  = Some [[js "r0"]; [js "r1"]; [js "r2"]; [js "r3"]].
Proof.
  apply (move_row_and_back
           2 0 [[js "r0"]; [js "r1"]; [js "r2"]; [js "r3"]]).
  - simpl. lia.
  - simpl. lia.
  - reflexivity.
Defined.

End WebviewMore.

Section WebviewColumns.
Import Webview Formatter Spec.

Lemma moveCell_some (fromIndex toIndex : nat) (row : list str) (cell : str) :
  nth_error row fromIndex = Some cell ->
  moveCell fromIndex toIndex row
  = Some (spliceIn toIndex cell (snd (spliceOut fromIndex row))).
Proof. intros E. unfold moveCell, spliceOut at 1. now rewrite E. Qed.

Lemma moveCell_none (fromIndex toIndex : nat) (row : list str) :
  length row <= fromIndex -> moveCell fromIndex toIndex row = None.
Proof.
  intros H. apply nth_error_None in H. unfold moveCell, spliceOut.
  now rewrite H.
Qed.

Lemma moveCell_back (fromIndex toIndex : nat) (row moved : list str) :
  fromIndex < length row -> toIndex < length row ->
  moveCell fromIndex toIndex row = Some moved ->
  moveCell toIndex fromIndex moved = Some row.
Proof.
  intros Hfrom Hto Hmove.
  destruct (nth_error row fromIndex) as [cell|] eqn:E;
    [|apply nth_error_None in E; lia].
  rewrite (moveCell_some fromIndex toIndex row cell E) in Hmove.
  set (rest := snd (spliceOut fromIndex row)) in *.
  assert (Em : moved = spliceIn toIndex cell rest) by congruence.
  subst moved. clear Hmove.
  assert (Hrest : length rest = length row - 1).
  { unfold rest. rewrite spliceOut_length.
    now replace (fromIndex <? length row) with true
      by (symmetry; apply Nat.ltb_lt; lia). }
  assert (Hout : spliceOut toIndex (spliceIn toIndex cell rest)
                 = (Some cell, rest)) by (apply spliceIn_out; lia).
  rewrite (moveCell_some toIndex fromIndex _ cell)
    by (now apply (f_equal fst) in Hout).
  rewrite Hout. cbn [snd]. f_equal. now apply spliceOut_in.
Qed.

Lemma moveCell_moved (fromIndex toIndex : nat) (row : list str) :
  fromIndex < length row ->
  exists moved,
    moveCell fromIndex toIndex row = Some moved /\
    Permutation row moved /\
    nth_error moved (Nat.min toIndex (length row - 1))
    = nth_error row fromIndex.
Proof.
  intros Hfrom.
  destruct (nth_error row fromIndex) as [cell|] eqn:E;
    [|apply nth_error_None in E; lia].
  set (rest := snd (spliceOut fromIndex row)).
  assert (Hrest : length rest = length row - 1).
  { unfold rest. rewrite spliceOut_length.
    now replace (fromIndex <? length row) with true
      by (symmetry; apply Nat.ltb_lt; lia). }
  exists (spliceIn toIndex cell rest).
  split; [now apply moveCell_some|]. split.
  - rewrite (spliceOut_perm _ fromIndex row cell E). apply spliceIn_perm.
  - rewrite <- Hrest. apply spliceIn_nth.
Qed.

Lemma forEachRow_Forall2 (f : list str -> option (list str))
      (tableData : Grid) : forall moved,
  forEachRow f tableData = Some moved <->
  Forall2 (fun row row' => f row = Some row') tableData moved.
Proof.
  induction tableData as [|row rows IH]; intros moved; simpl.
  - split; [intros [= <-]; constructor|intros H; now inversion H].
  - destruct (f row) as [row'|] eqn:E.
    + destruct (forEachRow f rows) as [rows'|] eqn:Er.
      * split.
        -- intros [= <-]. constructor; [exact E|now apply IH].
        -- intros H. inversion H as [|? r' ? rs' Hr Hrs]; subst.
           apply IH in Hrs. rewrite E in Hr.
           injection Hr as <-. injection Hrs as <-. reflexivity.
      * split; [discriminate|].
        intros H. inversion H as [|? r' ? rs' Hr Hrs]; subst.
        apply IH in Hrs. discriminate.
    + split; [discriminate|].
      intros H. inversion H as [|? r' ? rs' Hr Hrs]; subst.
      rewrite E in Hr. discriminate.
Qed.

Lemma moveColumn_rows (fromIndex toIndex : nat) (tableData moved : Grid) :
  tableData <> [] ->
  (moveColumn fromIndex toIndex tableData = Some moved <->
   Forall2 (fun row row' => moveCell fromIndex toIndex row = Some row')
           tableData moved).
Proof.
  intros Hne. unfold moveColumn. rewrite <- forEachRow_Forall2.
  destruct (forEachRow (moveCell fromIndex toIndex) tableData)
    as [rows|] eqn:E; simpl; [|split; discriminate].
  rewrite renderTable_rows; [reflexivity|].
  apply forEachRow_Forall2 in E. intros ->. inversion E; subst. congruence.
Qed.

(** X19: on a Grid with rows, [moveColumn] with a source position inside
    every row rearranges the cells of each row in the same way: the cell of
    the source column comes to stand at the destination position and no cell
    is lost; when some row is too short to have the source cell, the result
    is not a Grid. *)
Theorem move_column_rearranges
        (fromIndex toIndex : nat) (tableData : Grid) :
  tableData <> [] ->
  (Forall (fun row => fromIndex < length row) tableData ->
   exists moved,
     moveColumn fromIndex toIndex tableData = Some moved /\
     Forall2 (fun row row' =>
                Permutation row row' /\
                nth_error row' (Nat.min toIndex (length row - 1))
                = nth_error row fromIndex)
             tableData moved) /\
  (Exists (fun row => length row <= fromIndex) tableData ->
   moveColumn fromIndex toIndex tableData = None).
Proof.
  intros Hne. split.
  - intros Hall.
    assert (H : exists moved,
               Forall2 (fun row row' =>
                          moveCell fromIndex toIndex row = Some row')
                       tableData moved /\
               Forall2 (fun row row' =>
                          Permutation row row' /\
                          nth_error row' (Nat.min toIndex (length row - 1))
                          = nth_error row fromIndex)
                       tableData moved).
    { clear Hne. induction Hall as [|row rows Hrow Hrows IH].
      - exists []. split; constructor.
      - destruct IH as (moved & H1 & H2).
        destruct (moveCell_moved fromIndex toIndex row Hrow)
          as (row' & E & Hp & Hn).
        exists (row' :: moved). split; constructor; auto. }
    destruct H as (moved & H1 & H2). exists moved.
    split; [now apply moveColumn_rows|exact H2].
  - intros Hex. unfold moveColumn.
    assert (E : forEachRow (moveCell fromIndex toIndex) tableData = None).
    { clear Hne. induction Hex as [row rows Hrow|row rows Hrows IH]; simpl.
      - now rewrite moveCell_none.
      - rewrite IH. now destruct (moveCell fromIndex toIndex row). }
    now rewrite E.
Qed.

Lemma move_column_rearranges_witness :
  let tableData := [[js "a"; js "b"; js "c"]; [js "1"; js "2"; js "3"]] in
  exists moved,
    moveColumn 0 2 tableData = Some moved /\
    Forall2 (fun row row' =>
               Permutation row row' /\
               nth_error row' (Nat.min 2 (length row - 1))
               = nth_error row 0)
            tableData moved.
Proof.
  apply (proj1 (move_column_rearranges
                  0 2 [[js "a"; js "b"; js "c"]; [js "1"; js "2"; js "3"]]
                  ltac:(discriminate))).
  repeat constructor.
Defined.

(** X20: moving a column and moving it back gives the Grid one started
    from, when both positions lie inside every row. *)
Theorem move_column_and_back
        (fromIndex toIndex : nat) (tableData moved : Grid) :
  tableData <> [] ->
  Forall (fun row => fromIndex < length row /\ toIndex < length row)
         tableData ->
  moveColumn fromIndex toIndex tableData = Some moved ->
  moveColumn toIndex fromIndex moved = Some tableData.
Proof.
  intros Hne Hall Hmove.
  apply moveColumn_rows in Hmove; [|exact Hne].
  apply moveColumn_rows.
  - intros ->. inversion Hmove; subst. congruence.
  - clear Hne. induction Hmove as [|row row' rows rows' Hrow Hrows IH];
      [constructor|].
    inversion Hall as [|? ? [Hf Ht] Hall']; subst.
    constructor; [|now apply IH].
    now apply (moveCell_back fromIndex toIndex).
Qed.

Lemma move_column_and_back_witness :
  moveColumn 2 0 [[js "b"; js "c"; js "a"]; [js "2"; js "3"; js "1"]]
  = Some [[js "a"; js "b"; js "c"]; [js "1"; js "2"; js "3"]].
Proof.
  apply (move_column_and_back
           0 2 [[js "a"; js "b"; js "c"]; [js "1"; js "2"; js "3"]]).
  - discriminate.
  - repeat constructor.
  - reflexivity.
Defined.

Lemma sameLength_Forall (row0 : list str) (rows : Grid) :
  sameLength (row0 :: rows) = true <->
  Forall (fun row => length row = length row0) rows.
Proof.
  simpl. rewrite forallb_forall, Forall_forall.
  split; intros H row Hin; apply Nat.eqb_eq; now apply H.
Qed.

(** X21: [addRow] appends one row of empty cells, as wide as row 0 (two
    cells on an empty Grid), which keeps equal row lengths equal; removing
    the last row afterwards gives back the Grid, if it had a row. *)
Theorem add_row_then_remove (tableData : Grid) :
  addRow [] = [[[]; []]] /\
  (tableData <> [] ->
   addRow tableData = tableData ++ [repeat [] (length (hd [] tableData))] /\
   removeLastRow (addRow tableData) = tableData /\
   (sameLength tableData = true -> sameLength (addRow tableData) = true)).
Proof.
  split; [reflexivity|]. intros Hne.
  destruct tableData as [|row0 rows]; [congruence|].
  assert (E : addRow (row0 :: rows)
              = (row0 :: rows) ++ [repeat [] (length row0)]) by reflexivity.
  rewrite E. cbn [hd]. split; [reflexivity|]. split.
  - unfold removeLastRow.
    replace (1 <? length ((row0 :: rows) ++ [repeat [] (length row0)]))
      with true
      by (symmetry; apply Nat.ltb_lt; rewrite length_app; simpl; lia).
    rewrite removelast_last. reflexivity.
  - intros Hsame. apply sameLength_Forall in Hsame.
    cbn [app]. apply sameLength_Forall. apply Forall_app.
    split; [exact Hsame|]. constructor; [apply repeat_length|constructor].
Qed.

Lemma add_row_then_remove_witness :
  let tableData := [[js "a"; js "b"]; [js "c"; js "d"]] in
  addRow tableData = tableData ++ [repeat [] (length (hd [] tableData))] /\
  removeLastRow (addRow tableData) = tableData /\
  (sameLength tableData = true -> sameLength (addRow tableData) = true).
Proof.
  apply (proj2 (add_row_then_remove [[js "a"; js "b"]; [js "c"; js "d"]])).
  discriminate.
Defined.

Lemma removelast_snoc_rows (tableData : Grid) :
  map (@removelast str) (map (fun row => row ++ [[]]) tableData) = tableData.
Proof.
  rewrite map_map. rewrite <- (map_id tableData) at 2.
  apply map_ext. intros row. apply removelast_last.
Qed.

Lemma removeLastColumn_wide (row0 : list str) (rows : Grid) :
  1 < length row0 ->
  removeLastColumn (row0 :: rows) = map (@removelast str) (row0 :: rows).
Proof.
  intros H. unfold removeLastColumn.
  now replace (1 <? length row0) with true
    by (symmetry; apply Nat.ltb_lt; lia).
Qed.

Lemma removeLastColumn_narrow (row0 : list str) (rows : Grid) :
  length row0 <= 1 -> removeLastColumn (row0 :: rows) = row0 :: rows.
Proof.
  intros H. unfold removeLastColumn.
  now replace (1 <? length row0) with false
    by (symmetry; apply Nat.ltb_ge; lia).
Qed.

(** X22: [addColumn] appends an empty cell to every row; removing the last
    column afterwards gives back the Grid when row 0 had a cell, and leaves
    the new column in place when row 0 had none, as row 0 then has one cell
    only. *)
Theorem add_column_then_remove (tableData : Grid) :
  tableData <> [] ->
  addColumn tableData = map (fun row => row ++ [[]]) tableData /\
  (1 <= length (hd [] tableData) ->
   removeLastColumn (addColumn tableData) = tableData) /\
  (length (hd [] tableData) = 0 ->
   removeLastColumn (addColumn tableData) = addColumn tableData).
Proof.
  intros Hne. destruct tableData as [|row0 rows]; [congruence|].
  assert (E : addColumn (row0 :: rows)
              = map (fun row => row ++ [[]]) (row0 :: rows)) by reflexivity.
  rewrite E. split; [reflexivity|]. cbn [hd]. split; intros Hlen.
  - cbn [map]. rewrite removeLastColumn_wide
      by (rewrite length_app; simpl; unfold str, char in *; lia).
    change ((row0 ++ [[]]) :: map (fun row => row ++ [[]]) rows)
      with (map (fun row : list str => row ++ [[]]) (row0 :: rows)).
    apply removelast_snoc_rows.
  - cbn [map]. apply removeLastColumn_narrow.
    rewrite length_app. simpl. unfold str, char in *. lia.
Qed.

Lemma add_column_then_remove_witness :
  let tableData := [[js "a"]; [js "b"; js "c"]] in
  addColumn tableData = map (fun row => row ++ [[]]) tableData /\
  (1 <= length (hd [] tableData) ->
   removeLastColumn (addColumn tableData) = tableData) /\
  (length (hd [] tableData) = 0 ->
   removeLastColumn (addColumn tableData) = addColumn tableData).
Proof.
  apply (add_column_then_remove [[js "a"]; [js "b"; js "c"]]).
  discriminate.
Defined.

(** X23: [deleteSelectedRow] never removes row 0 and never empties the
    Grid: whatever the selection, the header is the same afterwards and at
    most one row is gone; it raises its alert exactly when row 0 is selected
    in a Grid of more than one row. *)
Theorem delete_row_keeps_the_header
        (selectedRowIndex : option nat) (tableData : Grid) :
  let result := deleteSelectedRow selectedRowIndex tableData in
  hd [] (fst result) = hd [] tableData /\
  length tableData - 1 <= length (fst result) <= length tableData /\
  (tableData <> [] -> fst result <> []) /\
  (snd result = Some "Cannot delete header row" <->
   selectedRowIndex = Some 0 /\ 1 < length tableData) /\
  (snd result <> None -> fst result = tableData).
Proof.
  cbv zeta. unfold deleteSelectedRow.
  destruct selectedRowIndex as [index|]; cbn [fst snd].
  2:{ split; [reflexivity|]. split; [lia|]. split; [auto|].
      split; [|intros _; reflexivity].
      split; [discriminate|intros [H _]; discriminate]. }
  destruct (1 <? length tableData) eqn:Hlen; cbn [fst snd].
  2:{ apply Nat.ltb_ge in Hlen.
      split; [reflexivity|]. split; [lia|]. split; [auto|].
      split; [|intros _; reflexivity].
      split; [discriminate|intros [_ H]; lia]. }
  apply Nat.ltb_lt in Hlen. destruct index as [|index]; cbn [Nat.eqb fst snd].
  - split; [reflexivity|]. split; [lia|]. split; [auto|].
    split; [|intros _; reflexivity]. split; auto.
  - destruct tableData as [|row0 rows]; [simpl in Hlen; lia|].
    assert (E : snd (spliceOut (S index) (row0 :: rows))
                = row0 :: snd (spliceOut index rows)) by reflexivity.
    rewrite E. cbn [renderTable hd length].
    pose proof (spliceOut_length _ index rows) as Hl.
    split; [reflexivity|].
    split; [destruct (index <? length rows); lia|].
    split; [discriminate|].
    split; [|intros H; congruence].
    split; [discriminate|intros [H _]; discriminate].
Qed.

Lemma spliceOut_shorter (index : nat) (row : list str) :
  length row - 1 <= length (snd (spliceOut index row)) <= length row.
Proof.
  rewrite spliceOut_length. destruct (index <? length row); lia.
Qed.

(** X24: [deleteSelectedColumn] takes at most one cell from each row and
    leaves row 0 with a cell if it had one; on a Grid of equal row lengths,
    with a selected column inside row 0 of two cells or more, every row
    ends one cell shorter. *)
Theorem delete_column_keeps_a_column
        (selectedColumnIndex : option nat) (tableData : Grid) :
  let result := deleteSelectedColumn selectedColumnIndex tableData in
  Forall2 (fun row row' => length row - 1 <= length row' <= length row)
          tableData result /\
  (1 <= length (hd [] tableData) -> 1 <= length (hd [] result)) /\
  (forall index,
     selectedColumnIndex = Some index -> sameLength tableData = true ->
     index < length (hd [] tableData) -> 1 < length (hd [] tableData) ->
     Forall (fun row' => length row' = length (hd [] tableData) - 1) result).
Proof.
  cbv zeta.
  assert (Hsame : Forall2 (fun row row' : list str =>
                             length row - 1 <= length row' <= length row)
                          tableData tableData).
  { induction tableData; constructor; auto. lia. }
  unfold deleteSelectedColumn.
  destruct selectedColumnIndex as [index|];
    [|repeat split; auto; intros; discriminate].
  destruct tableData as [|row0 rows];
    [repeat split; auto; intros; constructor|].
  destruct (1 <? length row0) eqn:Hlen.
  2:{ apply Nat.ltb_ge in Hlen. repeat split; auto.
      intros i _ _ _ H. cbn [hd] in H. lia. }
  apply Nat.ltb_lt in Hlen. cbn [map renderTable hd].
  split; [|split].
  - change (snd (spliceOut index row0)
              :: map (fun row => snd (spliceOut index row)) rows)
      with (map (fun row : list str => snd (spliceOut index row))
                (row0 :: rows)).
    clear. induction (row0 :: rows) as [|row data IH]; cbn [map];
      constructor; [apply spliceOut_shorter|exact IH].
  - intros _. rewrite spliceOut_length. destruct (index <? length row0); lia.
  - intros i [= <-] Hs Hi _. apply sameLength_Forall in Hs.
    constructor.
    + rewrite spliceOut_length.
      now replace (index <? length row0) with true
        by (symmetry; apply Nat.ltb_lt; lia).
    + rewrite Forall_map. eapply Forall_impl; [|exact Hs].
      intros row Hrow. rewrite spliceOut_length, Hrow.
      now replace (index <? length row0) with true
        by (symmetry; apply Nat.ltb_lt; lia).
Qed.

End WebviewColumns.
